(** * Building-boundary extraction: the cluster merge engine and the
      cascading discovery controller of [src/src/App.jsx].

    The JavaScript of [App.jsx] is embedded shallowly:
    - a JS number is an IEEE-754 binary64 value, Rocq's primitive [float];
    - a GeoJSON feature is a JS object, a finite map from keys to values;
    - an exception is an explicit [Throw] in the error monad [Exc], and a
      [try ... catch] is a match on it;
    - the Turf geometry library and the MapLibre map are not part of the
      repository: they are the interfaces [Turf] and [MapEngine] below, and
      every theorem holds for every implementation of them. *)

From Stdlib Require Import Floats ZArith Lia Ascii String.
From stdpp Require Import base option list gmap strings.

#[local] Set Warnings "-inexact-float,-register-all".
#[local] Open Scope float_scope.

(** ** Exceptions *)

Inductive Exc (A : Type) : Type :=
| Ok (a : A)
| Throw.
Arguments Ok {A} a.
Arguments Throw {A}.

#[export] Instance Exc_ret : MRet Exc := @Ok.
#[export] Instance Exc_bind : MBind Exc :=
  λ A B f m, match m with Ok a => f a | Throw => Throw end.

(** [try { m } catch (_) { h }] *)
Definition try_catch {A} (m : Exc A) (h : A) : A :=
  match m with Ok a => a | Throw => h end.

(** ** JavaScript numbers *)

Module Js.

Definition gt (x y : float) : bool := y <? x.
Definition le (x y : float) : bool := x <=? y.

(** Truthiness of a number: [0], [-0] and [NaN] are falsy. *)
Definition truthy (x : float) : bool := negb ((x =? 0) || is_nan x).

(** [o || d] where [o] is a possibly undefined number. *)
Definition or_default (o : option float) (d : float) : float :=
  match o with
  | Some x => if truthy x then x else d
  | None => d
  end.

(** [s.toLowerCase()] on ASCII and [s.includes(t)]. *)
Definition lower_ascii (c : ascii) : ascii :=
  let n := nat_of_ascii c in
  if (65 <=? n)%nat && (n <=? 90)%nat then ascii_of_nat (n + 32) else c.

Fixpoint toLowerCase (s : string) : string :=
  match s with
  | EmptyString => EmptyString
  | String c r => String (lower_ascii c) (toLowerCase r)
  end.

Fixpoint includes (s t : string) : bool :=
  String.prefix t s ||
  match s with
  | EmptyString => false
  | String _ r => includes r t
  end.

End Js.

(** ** GeoJSON data *)

Definition Position : Type := float * float.      (* [lng, lat] *)
Definition Ring : Type := list Position.
Definition PolygonCoords : Type := list Ring.     (* outer ring, then holes *)

(** [PolygonNoCoordinates] is [{ type: 'Polygon', coordinates: undefined }],
    the object that [toSinglePolygon] makes of a MultiPolygon without
    parts. *)
Inductive Geometry : Type :=
| Polygon (coordinates : PolygonCoords)
| MultiPolygon (coordinates : list PolygonCoords)
| OtherGeometry (type : string)
| PolygonNoCoordinates.

Inductive Json : Type :=
| JNull
| JBool (b : bool)
| JNum (x : float)
| JStr (s : string)
| JArr (l : list Json)
| JObj (o : list (string * Json)).

(** The value of one key of a feature object. *)
Inductive FieldVal : Type :=
| FGeometry (g : Geometry)
| FJson (j : Json).

(** A feature is a JS object: [f !! k] is [f.k], absent keys are
    [undefined]. *)
Abbreviation Feature := (gmap string FieldVal).

Definition geometry (f : Feature) : option Geometry :=
  match f !! "geometry"%string with
  | Some (FGeometry g) => Some g
  | _ => None
  end.

(** [{ ...f, geometry: g }] *)
Definition with_geometry (f : Feature) (g : Geometry) : Feature :=
  <["geometry"%string := FGeometry g]> f.

(** ** Geometry utilities *)

(** The body of the loop of [pointInRing]: [prev] is [ring[j]]. *)
Fixpoint pointInRing_loop (x y : float) (ring : Ring) (prev : Position)
    (inside : bool) : bool :=
  match ring with
  | [] => inside
  | (xi, yi) :: rest =>
      let '(xj, yj) := prev in
      let crosses :=
        negb (Bool.eqb (Js.gt yi y) (Js.gt yj y))
        && (x <? ((xj - xi) * (y - yi)) / (yj - yi) + xi) in
      pointInRing_loop x y rest (xi, yi) (if crosses then negb inside else inside)
  end.

Definition pointInRing (point : Position) (ring : Ring) : bool :=
  let '(x, y) := point in
  match last ring with
  | None => false
  | Some p => pointInRing_loop x y ring p false
  end.

(** [toSinglePolygon(feature, lngLat)] *)
Definition toSinglePolygon (feature : Feature) (lngLat : Position)
    : option Geometry :=
  match geometry feature with
  | None => None
  | Some (Polygon coordinates) => Some (Polygon coordinates)
  | Some PolygonNoCoordinates => Some PolygonNoCoordinates
  | Some (MultiPolygon coordinates) =>
      let hit polygon :=
        match polygon with
        | exteriorRing :: _ =>
            negb (length exteriorRing =? 0)%nat && pointInRing lngLat exteriorRing
        | [] => false
        end in
      match List.find hit coordinates with
      | Some polygon => Some (Polygon polygon)
      | None =>
          (* [{ type: 'Polygon', coordinates: coordinates[0] }]:
             [coordinates[0]] of a MultiPolygon without parts is
             [undefined] *)
          Some match coordinates !! 0%nat with
               | Some polygon => Polygon polygon
               | None => PolygonNoCoordinates
               end
      end
  | Some (OtherGeometry _) => None
  end.

(** [buildGeoJSONFromFeature(feature, geometry)]: the test is on
    [geometry.type] only. *)
Definition buildGeoJSONFromFeature (feature : Feature) (g : option Geometry)
    : option Feature :=
  match g with
  | Some (Polygon _ as g') | Some (MultiPolygon _ as g')
  | Some (PolygonNoCoordinates as g') =>
      Some (<["type"%string := FJson (JStr "Feature")]>
            (<["properties"%string :=
                 match feature !! "properties"%string with
                 | Some (FJson JNull) | None => FJson (JObj [])
                 | Some v => v
                 end]>
             (<["geometry"%string := FGeometry g']> ∅)))
  | _ => None
  end.

(** [(c[0] && c[0].length) || 0] *)
Definition outer_length (c : PolygonCoords) : nat :=
  match c with
  | r :: _ => length r
  | [] => 0%nat
  end.

(** [countCoords(geometry)].  The counts are array lengths and sums of
    them: natural numbers. *)
Definition countCoords (g : option Geometry) : nat :=
  match g with
  | Some (Polygon c) => outer_length c
  | Some (MultiPolygon c) =>
      foldl (λ sum poly, (sum + outer_length poly)%nat) 0%nat c
  | _ => 0%nat
  end.

(** ** The Turf library, as far as [App.jsx] calls it

    Every call can throw.  A Turf feature carries no properties here, so it
    is represented by its geometry; a Turf point by its position.
    [turf.polygon] and [turf.point] build the geometry they are given or
    throw, so the interface only says when they throw. *)

Class Turf : Type := {
  polygon_throws : PolygonCoords → bool;
  point_throws : Position → bool;
  turf_area : Geometry → Exc float;
  turf_centroid : Geometry → Exc Position;
  (** [turf.distance(a, b, { units: 'kilometers' })] *)
  turf_distance : Position → Position → Exc float;
  turf_booleanPointInPolygon : Position → Geometry → Exc bool;
  turf_booleanIntersects : Geometry → Geometry → Exc bool;
  (** [turf.union(turf.featureCollection([a, b]))]: [None] is [null] *)
  turf_union : Geometry → Geometry → Exc (option Geometry);
  (** [turf.cleanCoords(turf.feature(g))?.geometry] *)
  turf_cleanCoords : Geometry → Exc (option Geometry);
  (** [turf.buffer(turf.feature(g), r, { units: 'meters' })] *)
  turf_buffer : Geometry → float → Exc (option Geometry);
  (** [turf.bbox(turf.feature(g))]: [[minX, minY, maxX, maxY]] *)
  turf_bbox : Geometry → Exc (float * float * float * float);
}.

Section Flatten.
Context `{Turf}.

Definition turf_polygon (c : PolygonCoords) : Exc Geometry :=
  if polygon_throws c then Throw else Ok (Polygon c).

Definition turf_point (p : Position) : Exc Position :=
  if point_throws p then Throw else Ok p.

(** The two arrays [coords] and [turfPolys] that [extractPolygonCoords]
    fills. *)
Definition Fragments : Type := list PolygonCoords * list (option Geometry).

(** [try { coords.push(c); turfPolys.push(turf.polygon(c)) }
     catch (_) { coords.push(c); turfPolys.push(null) }]:
    when [turf.polygon] throws, the first [coords.push(c)] has already
    run, and the handler pushes [c] a second time. *)
Definition push_fragment (acc : Fragments) (c : PolygonCoords) : Fragments :=
  let '(coords, turfPolys) := acc in
  let coords := coords ++ [c] in
  match turf_polygon c with
  | Ok p => (coords, turfPolys ++ [Some p])
  | Throw => (coords ++ [c], turfPolys ++ [None])
  end.

(** [c[0]?.length] is truthy *)
Definition has_outer_ring (c : PolygonCoords) : bool :=
  match c with
  | r :: _ => negb (length r =? 0)%nat
  | [] => false
  end.

Definition extract_feature (acc : Fragments) (f : Feature) : Fragments :=
  match geometry f with
  | Some (Polygon coordinates) =>
      if has_outer_ring coordinates then push_fragment acc coordinates else acc
  | Some (MultiPolygon coordinates) =>
      foldl (λ acc polygonCoords,
               if has_outer_ring polygonCoords
               then push_fragment acc polygonCoords else acc)
            acc coordinates
  | _ => acc
  end.

Definition extractPolygonCoords (features : list Feature) : Fragments :=
  foldl extract_feature ([], []) features.

End Flatten.

(** ** The cluster merge engine: [pickOrMergeSourceFeatures] *)

Definition AREA_MULTIPLIER : float := 3.0.
Definition MAX_NEIGHBOR_DISTANCE_KM : float := 0.05.

(** The [options] argument; an absent key is [None]. *)
Record Options : Type := {
  areaMultiplier : option float;
  maxDistanceKm : option float;
}.
Definition no_options : Options :=
  {| areaMultiplier := None; maxDistanceKm := None |}.

(** The state of the expansion loop: the [Set] in insertion order, the
    running area and the flag of the [while]. *)
Record Cluster : Type := {
  members : list nat;
  clusterArea : float;
  changed : bool;
}.

Section Merge.
Context `{Turf}.

Section OnFragments.
Variable allCoords : list PolygonCoords.
Variable turfPolys : list (option Geometry).
Variable lngLat clickPt : Position.

(** [turfPolys[i]], [null] and [undefined] alike *)
Definition poly_at (i : nat) : option Geometry := turfPolys !! i ≫= id.

(** [for (let i = 0; i < allCoords.length; i++)] *)
Definition indices : list nat := seq 0 (length allCoords).

(** *** 1) Seed identification *)

(** The seed so far: [seedIndex] ([None] is [-1]) and [seedArea]. *)
Definition Seed : Type := option nat * float.

Definition seed_contain_step (st : Seed) (i : nat) : Seed :=
  match poly_at i with
  | None => st
  | Some poly =>
      try_catch
        (inside ← turf_booleanPointInPolygon clickPt poly;
         if inside : bool then
           a ← turf_area poly;
           Ok (if a <? st.2 then (Some i, a) else st)
         else Ok st)
        st
  end.

Definition seed_by_containment : Seed :=
  foldl seed_contain_step (None, infinity) indices.

(** [allCoords[i]?.[0] && pointInRing([lng, lat], allCoords[i][0])] *)
Definition raycast_hit (i : nat) : bool :=
  match allCoords !! i with
  | Some (ring :: _) => pointInRing lngLat ring
  | _ => false
  end.

(** The loop stops at the first hit; [turf.area] is not guarded. *)
Definition seed_by_raycast (st : Seed) : Exc Seed :=
  match List.find raycast_hit indices with
  | Some i =>
      seedArea ← match poly_at i with
                  | Some poly => turf_area poly
                  | None => Ok 0
                  end;
      Ok (Some i, seedArea)
  | None => Ok st
  end.

(** [minDist] and [seedIndex] are assigned before [turf.area] can throw;
    then [seedArea] keeps its old value. *)
Definition seed_nearest_step (st : float * Seed) (i : nat) : float * Seed :=
  match poly_at i with
  | None => st
  | Some poly =>
      match c ← turf_centroid poly; turf_distance clickPt c with
      | Ok d =>
          if d <? st.1
          then (d, (Some i, try_catch (turf_area poly) st.2.2))
          else st
      | Throw => st
      end
  end.

Definition seed_by_nearest (st : Seed) : Seed :=
  (foldl seed_nearest_step (infinity, st) indices).2.

Definition select_seed : Exc Seed :=
  let st := seed_by_containment in
  st ← (if st.1 is None then seed_by_raycast st else Ok st);
  Ok (if st.1 is None then seed_by_nearest st else st).

(** *** Precomputed areas and centroids *)

Definition areas : list float :=
  imap (λ i _, match poly_at i with
               | None => 0
               | Some p => try_catch (turf_area p) 0
               end) allCoords.

Definition centroids : list (option Position) :=
  imap (λ i _, match poly_at i with
               | None => None
               | Some p => match turf_centroid p with
                           | Ok c => Some c
                           | Throw => None
                           end
               end) allCoords.

(** *** 2) Strict expansion *)

Variable seedCentroid : Position.
Variable maxClusterArea maxDist : float.

Definition touchesCluster (poly : Geometry) (cluster : list nat) : bool :=
  existsb (λ j, match poly_at j with
                | None => false
                | Some other =>
                    try_catch (turf_booleanIntersects poly other) false
                end) cluster.

(** The distance guard: [Ok true] is the [continue]. *)
Definition too_far (i : nat) : Exc bool :=
  match centroids !! i ≫= id with
  | Some candidateCentroid =>
      dist ← turf_distance seedCentroid candidateCentroid;
      Ok (Js.gt dist maxDist)
  | None => Ok false
  end.

Definition candidateArea (i : nat) : float := Js.or_default (areas !! i) 0.

Definition over_area (st : Cluster) (i : nat) : bool :=
  Js.gt maxClusterArea 0
  && Js.gt (clusterArea st + candidateArea i) maxClusterArea.

(** [cluster.add(i); clusterArea += candidateArea; changed = true] *)
Definition grown (st : Cluster) (i : nat) : Cluster :=
  {| members := members st ++ [i];
     clusterArea := clusterArea st + candidateArea i;
     changed := true |}.

(** One iteration of the [for] loop. *)
Definition expand_step (st : Cluster) (i : nat) : Cluster :=
  if bool_decide (i ∈ members st) then st else
  match poly_at i with
  | None => st
  | Some poly =>
      try_catch
        (far ← too_far i;
         if far : bool then Ok st
         else if over_area st i then Ok st
         else if negb (touchesCluster poly (members st)) then Ok st
         else Ok (grown st i))
        st
  end.

(** Fragment [i] is not in the cluster and passes the distance guard, the
    area guard and the adjacency test against the cluster [st]. *)
Definition joins (st : Cluster) (i : nat) : Prop :=
  (i ∉ members st) ∧
  (∃ poly, poly_at i = Some poly
     ∧ too_far i = Ok false
     ∧ over_area st i = false
     ∧ touchesCluster poly (members st) = true).

(** One iteration of the [while]: [changed = false], then the scan. *)
Definition scan (st : Cluster) : Cluster :=
  foldl expand_step
        {| members := members st; clusterArea := clusterArea st;
           changed := false |}
        indices.

(** [while (changed) { ... }], entered with [changed = true]. *)
Fixpoint expand_loop (fuel : nat) (st : Cluster) : Cluster :=
  match fuel with
  | O => st
  | S fuel' =>
      let st' := scan st in
      if changed st' then expand_loop fuel' st' else st'
  end.

(** Every pass but the last admits a fragment, so [length allCoords]
    passes and a last one are enough (see [expand_fixpoint]). *)
Definition expand (seedIndex : nat) : Cluster :=
  expand_loop (S (length allCoords))
    {| members := [seedIndex];
       clusterArea := Js.or_default (areas !! seedIndex) 0;
       changed := true |}.

End OnFragments.
End Merge.

Section MergeResult.
Context `{Turf}.

(** *** 3) Union of the cluster *)

(** The inner loop: a [null] union ends it ([break]), a throw keeps the
    union so far ([continue]). *)
Fixpoint union_loop (unionResult : Geometry) (rest : list PolygonCoords)
    : option Geometry :=
  match rest with
  | [] => Some unionResult
  | c :: rest' =>
      match next ← turf_polygon c; turf_union unionResult next with
      | Ok (Some u) => union_loop u rest'
      | Ok None => None
      | Throw => union_loop unionResult rest'
      end
  end.

Definition union_cluster (clusterCoords : list PolygonCoords)
    : option Geometry :=
  match clusterCoords with
  | [] => None
  | c0 :: rest =>
      match turf_polygon c0 with
      | Ok p => union_loop p rest
      | Throw => None
      end
  end.

(** *** 4) Force single Polygon output *)

(** The loop over the parts of a MultiPolygon union: the index of the
    part kept. *)
Fixpoint pick_part (clickPt : Position) (parts : list PolygonCoords)
    (i bestIdx : nat) (bestArea : float) : nat :=
  match parts with
  | [] => bestIdx
  | c :: rest =>
      match
        subPoly ← turf_polygon c;
        inside ← turf_booleanPointInPolygon clickPt subPoly;
        if inside : bool then Ok None
        else a ← turf_area subPoly; Ok (Some a)
      with
      | Ok None => i
      | Ok (Some a) =>
          if Js.gt a bestArea
          then pick_part clickPt rest (S i) i a
          else pick_part clickPt rest (S i) bestIdx bestArea
      | Throw => pick_part clickPt rest (S i) bestIdx bestArea
      end
  end.

Definition canonicalize (clickPt : Position) (unionResult : option Geometry)
    : option Geometry :=
  match unionResult with
  | None => None
  | Some (MultiPolygon coordinates as geom) =>
      if (1 <? length coordinates)%nat then
        let bestIdx := pick_part clickPt coordinates 0 0 0 in
        Some (Polygon (default [] (coordinates !! bestIdx)))
      else if (length coordinates =? 1)%nat then
        Some (Polygon (default [] (coordinates !! 0%nat)))
      else Some geom
  | Some geom => Some geom
  end.

(** The fallback when the union failed entirely. *)
Definition union_fallback (clusterCoords : list PolygonCoords) : Geometry :=
  if (length clusterCoords =? 1)%nat
  then Polygon (default [] (clusterCoords !! 0%nat))
  else MultiPolygon clusterCoords.

(** *** 5) Geometry cleanup *)

Definition cleanup (finalGeometry : Geometry) : Geometry :=
  match turf_cleanCoords finalGeometry with
  | Ok (Some g) => g
  | _ => finalGeometry
  end.

(** [[...cluster].map((i) => allCoords[i])]; every member is an index of
    [allCoords] (see [expand_fixpoint]). *)
Definition cluster_coords (allCoords : list PolygonCoords)
    (cluster : list nat) : list PolygonCoords :=
  (λ i, default [] (allCoords !! i)) <$> cluster.

(** The variables of [pickOrMergeSourceFeatures] once the expansion loop
    has ended. *)
Record Clustered : Type := {
  allCoords : list PolygonCoords;
  turfPolys : list (option Geometry);
  clickPt : Position;
  seedIndex : nat;
  seedArea : float;
  seedCentroid : Position;
  maxClusterArea : float;
  maxDist : float;
  cluster : Cluster;
}.

(** Steps 0) to 2): an early [return] of a feature, or the cluster. *)
Definition cluster_stage (feature0 : Feature) (rest : list Feature)
    (lngLat : Position) (options : Options) : Exc (Feature + Clustered) :=
  let features := feature0 :: rest in
  let areaMult := Js.or_default (areaMultiplier options) AREA_MULTIPLIER in
  let maxDist :=
    Js.or_default (maxDistanceKm options) MAX_NEIGHBOR_DISTANCE_KM in
  (* 0) flatten all features *)
  let '(allCoords, turfPolys) := extractPolygonCoords features in
  if (length allCoords =? 0)%nat then Ok (inl feature0) else
  clickPt ← turf_point lngLat;
  if (length allCoords =? 1)%nat then
    Ok (inl (with_geometry feature0
               (Polygon (default [] (allCoords !! 0%nat)))))
  else
  (* 1) seed identification *)
  seed ← select_seed allCoords turfPolys lngLat clickPt;
  match seed.1 with
  | None => Ok (inl feature0)
  | Some seedIndex =>
      let seedPoly := poly_at turfPolys seedIndex in
      seedCentroid ← match seedPoly with
                      | Some p => turf_centroid p
                      | None => Ok clickPt
                      end;
      seedArea ← (if negb (Js.truthy seed.2) || Js.le seed.2 0
                   then match seedPoly with
                        | Some p => turf_area p
                        | None => Ok 0
                        end
                   else Ok seed.2);
      let maxClusterArea := seedArea * areaMult in
      (* 2) strict expansion *)
      Ok (inr {| allCoords := allCoords; turfPolys := turfPolys;
                 clickPt := clickPt; seedIndex := seedIndex;
                 seedArea := seedArea; seedCentroid := seedCentroid;
                 maxClusterArea := maxClusterArea; maxDist := maxDist;
                 cluster := expand allCoords turfPolys seedCentroid
                                   maxClusterArea maxDist seedIndex |})
  end.

(** Steps 3) to 5): the geometry made of the cluster. *)
Definition merged_geometry (c : Clustered) : Geometry :=
  let clusterCoords := cluster_coords (allCoords c) (members (cluster c)) in
  if (length clusterCoords =? 0)%nat then
    Polygon (default [] (allCoords c !! seedIndex c))
  else if (length clusterCoords =? 1)%nat then
    Polygon (default [] (clusterCoords !! 0%nat))
  else
    let unionResult := union_cluster clusterCoords in
    let finalGeometry :=
      match canonicalize (clickPt c) unionResult with
      | Some g => g
      | None => union_fallback clusterCoords
      end in
    cleanup finalGeometry.

Definition pickOrMergeSourceFeatures (features : list Feature)
    (lngLat : Position) (options : Options) : Exc (option Feature) :=
  match features with
  | [] => Ok None
  | feature0 :: rest =>
      stage ← cluster_stage feature0 rest lngLat options;
      match stage with
      | inl early => Ok (Some early)
      | inr c => Ok (Some (with_geometry feature0 (merged_geometry c)))
      end
  end.

End MergeResult.

(** ** The cascading discovery controller: [handleGetBuildingAtLocation] *)

Definition QUERY_RADIUS_PX : float := 3.
Definition FLY_TO_ZOOM : float := 17.5.

(** A MapLibre filter expression: [['==', ['id'], v]] or
    [['==', ['get', key], v]]. *)
Inductive Filter : Type :=
| FilterId (v : Json)
| FilterGet (key : string) (v : Json).

Definition BBox : Type := float * float * float * float.

(** The MapLibre map, as far as the controller calls it.  A camera move
    is taken together with the ['idle'] event and the
    [SOURCE_QUERY_DELAY_MS] timeout that follow it: the world after the move
    is the one the queries of the callback see. *)
Class MapEngine : Type := {
  World : Type;
  (** [map.flyTo({ center, zoom, duration: 400 })] *)
  flyTo : World → Position → float → World;
  (** [map.fitBounds(bounds, { padding: 120, maxZoom, duration: 300 })] *)
  fitBounds : World → BBox → float → World;
  project : World → Position → float * float;
  queryRenderedFeatures : World → (float * float) * (float * float) → list Feature;
  (** [map.querySourceFeatures(sourceId, { sourceLayer, filter })];
      [Ok None] is a [null] answer *)
  querySourceFeatures : World → Json → Json → Filter → Exc (option (list Feature));
}.

Module Js_obj.

(** [o.k] on a JSON object; anything else has no keys. *)
Definition get (k : string) (j : Json) : option Json :=
  match j with
  | JObj o => snd <$> List.find (λ kv, String.eqb kv.1 k) o
  | _ => None
  end.

(** [f.k] as JSON; a geometry is not JSON. *)
Definition field (k : string) (f : Feature) : option Json :=
  match f !! k with
  | Some (FJson j) => Some j
  | _ => None
  end.

(** [v != null] *)
Definition non_nullish (v : option Json) : option Json :=
  match v with
  | Some JNull | None => None
  | Some j => Some j
  end.

(** [a ?? b] *)
Definition coalesce (a b : option Json) : option Json :=
  match non_nullish a with
  | Some j => Some j
  | None => b
  end.

Definition truthy (v : option Json) : bool :=
  match v with
  | None | Some JNull | Some (JBool false) | Some (JStr EmptyString) => false
  | Some (JNum x) => Js.truthy x
  | Some _ => true
  end.

(** [Math.max(a, b)] on numbers that are not both zero *)
Definition max (a b : float) : float :=
  if is_nan a || is_nan b then nan else if a <? b then b else a.

End Js_obj.

(** What a zoom level hands to [onResult]. *)
Record Result : Type := {
  res_feature : Feature;
  res_geometry : option Geometry;
}.

Definition MAX_PASSES : nat := 6.
Definition BBOX_GROWTH : float := 0.10.
Definition POINT_BUFFER_M : float := 10.
Definition ZOOM_CASCADE : list float := [13.5; 15.5; 17.5; 19.5].

(** The variables of the expansion loop that [runPass] closes over. *)
Record PassState `{MapEngine} : Type := {
  currentMerged : option Feature;
  currentGeom : option Geometry;
  prevDiagonal : float;
  passNumber : nat;
  world : World;
}.

(** Why [runPass] called [onResult]. *)
Inductive Exit : Type := NoGeometry | PassLimit | Converged.

Inductive PassOutcome `{MapEngine} : Type :=
| Finished (why : Exit) (result : option Result) (w : World)
| NextPass (st : PassState).

Section Discovery.
Context `{Turf} `{MapEngine}.

(** [lngNum], [latNum] and [clickPt = turf.point([lngNum, latNum])] *)
Variable center : Position.
Variable clickPt : Position.

(** *** Validation *)

Definition isPointInsideResult (g : option Geometry) : bool :=
  match g with
  | None => false
  | Some g =>
      try_catch
        (direct ← turf_booleanPointInPolygon clickPt g;
         if direct : bool then Ok true
         else
           buffered ← turf_buffer g POINT_BUFFER_M;
           match buffered with
           | Some b => turf_booleanPointInPolygon clickPt b
           | None => Ok false
           end)
        false
  end.

(** *** The rendered building and its identity filter *)

(** The predicate of [rendered.find]; a layer id that is not a string
    does not match. *)
Definition is_building (f : Feature) : bool :=
  match geometry f with
  | Some (Polygon _) | Some (MultiPolygon _) | Some PolygonNoCoordinates =>
      let layer := Js_obj.field "layer" f in
      match layer ≫= Js_obj.get "id" with
      | Some (JStr id) => Js.includes (Js.toLowerCase id) "building"
      | _ => false
      end
      || match layer ≫= Js_obj.get "type" with
         | Some (JStr t) => String.eqb t "fill"
         | _ => false
         end
  | _ => false
  end.

(** [building.id ?? building.properties?.id ?? building.properties?.osm_id] *)
Definition feature_id (building : Feature) : option Json :=
  let properties := Js_obj.field "properties" building in
  Js_obj.coalesce
    (Js_obj.coalesce (Js_obj.field "id" building)
                     (properties ≫= Js_obj.get "id"))
    (properties ≫= Js_obj.get "osm_id").

Definition filters_to_try (featureId : Json) : list Filter :=
  [FilterId featureId; FilterGet "id" featureId; FilterGet "osm_id" featureId].

(** [sf && sf.length > 0], inside the [try] *)
Definition answers (w : World) (sourceId sourceLayer : Json)
    (filter : Filter) : bool :=
  match querySourceFeatures w sourceId sourceLayer filter with
  | Ok (Some (_ :: _)) => true
  | _ => false
  end.

(** The source, the layer and the first filter that answers. *)
Definition working_filter (w : World) (building : Feature)
    : option (Json * Json * Filter) :=
  match Js_obj.field "source" building,
        Js_obj.non_nullish (Js_obj.field "sourceLayer" building),
        Js_obj.non_nullish (feature_id building) with
  | Some sourceId, Some sourceLayer, Some featureId =>
      if Js_obj.truthy (Some sourceId) then
        (λ filter, (sourceId, sourceLayer, filter))
          <$> List.find (answers w sourceId sourceLayer)
                        (filters_to_try featureId)
      else None
  | _, _, _ => None
  end.

(** *** The expansion loop at one zoom level *)

(** [try { const sf = map.querySourceFeatures(...); if (sf && sf.length > 0)
     { const merged = pickOrMergeSourceFeatures(sf, [lngNum, latNum], options);
       if (merged?.geometry) { currentMerged = merged; currentGeom = merged.geometry } } }
     catch (_) { }] *)
Definition requery (w : World) (src : Json * Json * Filter) (options : Options)
    (cur : option Feature * option Geometry)
    : option Feature * option Geometry :=
  let '(sourceId, sourceLayer, filter) := src in
  try_catch
    (sf ← querySourceFeatures w sourceId sourceLayer filter;
     match sf with
     | Some ((_ :: _) as features) =>
         merged ← pickOrMergeSourceFeatures features center options;
         match merged ≫= geometry with
         | Some g => Ok (merged, Some g)
         | None => Ok cur
         end
     | _ => Ok cur
     end)
    cur.

Definition on_result (st : PassState) : option Result :=
  match currentMerged st with
  | Some m => Some {| res_feature := m; res_geometry := currentGeom st |}
  | None => None
  end.

(** [prevDiagonal > 0 ? (diagonal - prevDiagonal) / prevDiagonal : 1] *)
Definition growth (prevDiagonal diagonal : float) : float :=
  if Js.gt prevDiagonal 0
  then (diagonal - prevDiagonal) / prevDiagonal
  else 1.

(** One call of [runPass], up to the next call that it schedules. *)
Definition runPass_body (src : Json * Json * Filter) (st : PassState)
    : Exc PassOutcome :=
  let passNumber := S (passNumber st) in
  match currentGeom st with
  | None => Ok (Finished NoGeometry (on_result st) (world st))
  | Some g =>
      if (MAX_PASSES <? passNumber)%nat
      then Ok (Finished PassLimit (on_result st) (world st))
      else
        bboxGeo ← turf_bbox g;
        let '(minX, minY, maxX, maxY) := bboxGeo in
        p1 ← turf_point (minX, minY);
        p2 ← turf_point (maxX, maxY);
        diagonal ← turf_distance p1 p2;
        if (1 <? passNumber)%nat && (growth (prevDiagonal st) diagonal <? BBOX_GROWTH)
        then Ok (Finished Converged (on_result st) (world st))
        else
          let adaptiveDistanceKm :=
            Js_obj.max MAX_NEIGHBOR_DISTANCE_KM (diagonal * 2.0) in
          let adaptiveAreaMultiplier := Js_obj.max AREA_MULTIPLIER 10.0 in
          let w := fitBounds (world st) bboxGeo FLY_TO_ZOOM in
          let '(merged, geom) :=
            requery w src
              {| areaMultiplier := Some adaptiveAreaMultiplier;
                 maxDistanceKm := Some adaptiveDistanceKm |}
              (currentMerged st, currentGeom st) in
          Ok (NextPass {| currentMerged := merged; currentGeom := geom;
                          prevDiagonal := diagonal; passNumber := passNumber;
                          world := w |})
  end.

(** [runPass] calls itself from its own callback; [None] is a run that
    has not called [onResult] after [fuel] calls. *)
Fixpoint runPass (fuel : nat) (src : Json * Json * Filter) (st : PassState)
    : Exc (option (Exit * option Result * World)) :=
  match fuel with
  | O => Ok None
  | S fuel' =>
      out ← runPass_body src st;
      match out with
      | Finished why result w => Ok (Some (why, result, w))
      | NextPass st' => runPass fuel' src st'
      end
  end.

(** The number of passes a run makes: the calls of [runPass] that move
    the camera and query again. *)
Fixpoint passes (fuel : nat) (src : Json * Json * Filter) (st : PassState)
    : nat :=
  match fuel with
  | O => O
  | S fuel' =>
      match runPass_body src st with
      | Ok (NextPass st') => S (passes fuel' src st')
      | _ => O
      end
  end.

(** [diagonal] is what a call of [runPass] in state [st] measures: the
    distance between the corners of the bounding box of [currentGeom]. *)
Definition measures (st : PassState) (diagonal : float) : Prop :=
  ∃ g minX minY maxX maxY p1 p2,
    currentGeom st = Some g
    ∧ turf_bbox g = Ok (minX, minY, maxX, maxY)
    ∧ turf_point (minX, minY) = Ok p1
    ∧ turf_point (maxX, maxY) = Ok p2
    ∧ turf_distance p1 p2 = Ok diagonal.

(** [passNumber > 1 && growth < BBOX_GROWTH], [passNumber] being the one of
    this call. *)
Definition converged (st : PassState) (diagonal : float) : bool :=
  (1 <? S (passNumber st))%nat
  && (growth (prevDiagonal st) diagonal <? BBOX_GROWTH).

End Discovery.

(** The React state and the highlight layer that the controller writes. *)
Record UI : Type := {
  geoJSON : option Feature;
  error : option string;
  isLoadingBuilding : bool;
  highlight : option Geometry;
}.

(** What the controller logs for a zoom level: the level, the candidate
    it yielded ([None] when no building was found) and whether the candidate
    was validated. *)
Record Visit : Type := {
  visit_zoom : float;
  candidate : option Result;
  validated : bool;
}.

(** The variables that [tryNextZoom] closes over, and the log so far,
    oldest visit first. *)
Record Cascade `{MapEngine} : Type := {
  zoomIndex : nat;
  bestResult : option Result;
  map : World;
  ui : UI;
  log : list Visit;
}.

(** The last candidate of a log. *)
Definition last_candidate (l : list Visit) : option Result :=
  last (omap candidate l).

Definition NoBuildingFound : string := "No building found at this location.".

Section Cascade.
Context `{Turf} `{MapEngine}.
Variable center : Position.
Variable clickPt : Position.

(** [discoverAtZoom(zoom, onResult)]: the argument of [onResult] and the
    world it is called in; [None] when [runPass] has not called it. *)
Definition discoverAtZoom (zoom : float) (w : World)
    : Exc (option (option Result * World)) :=
  let w := flyTo w center zoom in
  let '(x, y) := project w center in
  let bboxPx := ((x - QUERY_RADIUS_PX, y - QUERY_RADIUS_PX),
                 (x + QUERY_RADIUS_PX, y + QUERY_RADIUS_PX)) in
  match List.find is_building (queryRenderedFeatures w bboxPx) with
  | None => Ok (Some (None, w))
  | Some building =>
      match working_filter w building with
      | None =>
          (* no source query possible: the rendered feature itself *)
          let geom := match toSinglePolygon building center with
                      | Some g => Some g
                      | None => geometry building
                      end in
          Ok (Some (match geom with
                    | Some g => Some {| res_feature := building;
                                        res_geometry := Some g |}
                    | None => None
                    end, w))
      | Some src =>
          let '(merged, geom) :=
            requery center w src no_options (None, geometry building) in
          out ← runPass center (S MAX_PASSES) src
                  {| currentMerged := merged; currentGeom := geom;
                     prevDiagonal := 0; passNumber := 0; world := w |};
          match out : option (Exit * option Result * World) with
          | Some (_, result, w) => Ok (Some (result, w))
          | None => Ok None
          end
      end
  end.

(** [showHighlight(map, polygonGeometry)]: the geometry of the source
    that it adds, [None] when it returns before adding one:
    [!polygonGeometry], a type that is neither ['Polygon'] nor
    ['MultiPolygon'], or [!polygonGeometry.coordinates]. *)
Definition showHighlight (g : option Geometry) : option Geometry :=
  match g with
  | Some (Polygon _ as g') | Some (MultiPolygon _ as g') => Some g'
  | Some PolygonNoCoordinates => None
  | Some (OtherGeometry _) | None => None
  end.

(** [showHighlight(...); setGeoJSON(buildGeoJSONFromFeature(...));
     setIsLoadingBuilding(false)] *)
Definition show (r : Result) (u : UI) : UI :=
  {| geoJSON := buildGeoJSONFromFeature (res_feature r) (res_geometry r);
     error := error u;
     isLoadingBuilding := false;
     highlight := showHighlight (res_geometry r) |}.

(** [setError('No building found at this location.');
     setIsLoadingBuilding(false)] *)
Definition show_error (u : UI) : UI :=
  {| geoJSON := geoJSON u; error := Some NoBuildingFound;
     isLoadingBuilding := false; highlight := highlight u |}.

(** The branch [zoomIndex >= ZOOM_CASCADE.length]. *)
Definition exhausted (st : Cascade) : Cascade :=
  {| zoomIndex := zoomIndex st; bestResult := bestResult st; map := map st;
     log := log st;
     ui := match bestResult st with
           | Some best => show best (ui st)
           | None => show_error (ui st)
           end |}.

(** The result as the callback reads it: [!result || !result.geometry]
    is no candidate. *)
Definition candidate_of (result : option Result) : option Result :=
  match result with
  | Some {| res_feature := f; res_geometry := Some g |} =>
      Some {| res_feature := f; res_geometry := Some g |}
  | _ => None
  end.

(** What one call of [tryNextZoom] does, to the end of the callback that it
    passes to [discoverAtZoom]. *)
Inductive ZoomOutcome : Type :=
| Done (final : Cascade)
| NextZoom (st : Cascade).

Definition tryNextZoom_body (st : Cascade) : Exc (option ZoomOutcome) :=
  match ZOOM_CASCADE !! zoomIndex st with
  | None => Ok (Some (Done (exhausted st)))
  | Some zoom =>
      out ← discoverAtZoom zoom (map st);
      match out with
      | None => Ok None
      | Some (result, w) =>
          match candidate_of result with
          | None =>
              Ok (Some (NextZoom
                {| zoomIndex := S (zoomIndex st); bestResult := bestResult st;
                   map := w; ui := ui st;
                   log := log st ++ [{| visit_zoom := zoom; candidate := None;
                                        validated := false |}] |}))
          | Some result =>
              (* bestResult = result, then the validation *)
              let valid := isPointInsideResult clickPt (res_geometry result) in
              let st' :=
                {| zoomIndex := S (zoomIndex st); bestResult := Some result;
                   map := w;
                   ui := if valid then show result (ui st) else ui st;
                   log := log st ++ [{| visit_zoom := zoom;
                                        candidate := Some result;
                                        validated := valid |}] |} in
              Ok (Some (if valid then Done st' else NextZoom st'))
          end
      end
  end.

(** [tryNextZoom] calls itself from the callback; [None] is a run that
    has not finished after [fuel] calls. *)
Fixpoint tryNextZoom (fuel : nat) (st : Cascade) : Exc (option Cascade) :=
  match fuel with
  | O => Ok None
  | S fuel' =>
      out ← tryNextZoom_body st;
      match out with
      | None => Ok None
      | Some (Done final) => Ok (Some final)
      | Some (NextZoom st') => tryNextZoom fuel' st'
      end
  end.

(** [handleGetBuildingAtLocation], after [lat] and [lng] have parsed:
    [setError(null); clearHighlight(map); setGeoJSON(null);
     setIsLoadingBuilding(true)], and the cascade from its first level. *)
Definition loading : UI :=
  {| geoJSON := None; error := None; isLoadingBuilding := true;
     highlight := None |}.

Definition start (w : World) : Cascade :=
  {| zoomIndex := 0; bestResult := None; map := w; ui := loading; log := [] |}.

Definition handleGetBuildingAtLocation (w : World) : Exc (option Cascade) :=
  tryNextZoom (S (length ZOOM_CASCADE)) (start w).

End Cascade.

(** ** A click on the map: [getBuildingFeatureAtPoint] *)

Section Click.
Context `{Turf} `{MapEngine}.

(** [for (const filter of filtersToTry) { try { ... } catch (_) { continue } }]:
    the merge of the first answer that holds a feature is returned; a merge
    that throws is caught with the query, and the next filter is tried. *)
Fixpoint try_filters (w : World) (sourceId sourceLayer : Json)
    (lngLat : Position) (filtersToTry : list Filter) : option Feature :=
  match filtersToTry with
  | [] => None
  | filter :: rest =>
      match
        sourceFeatures ← querySourceFeatures w sourceId sourceLayer filter;
        match sourceFeatures with
        | Some ((_ :: _) as sourceFeatures) =>
            merged ← pickOrMergeSourceFeatures sourceFeatures lngLat no_options;
            Ok (Some merged)
        | _ => Ok None
        end
      with
      | Ok (Some (Some merged)) => Some merged
      | Ok (Some None) => None                 (* [break] *)
      | Ok None | Throw => try_filters w sourceId sourceLayer lngLat rest
      end
  end.

Definition getBuildingFeatureAtPoint (w : World) (point : float * float)
    (lngLat : Position) : option Feature :=
  let '(x, y) := point in
  let bbox := ((x - QUERY_RADIUS_PX, y - QUERY_RADIUS_PX),
               (x + QUERY_RADIUS_PX, y + QUERY_RADIUS_PX)) in
  match List.find is_building (queryRenderedFeatures w bbox) with
  | None => None
  | Some renderedBuilding =>
      let merged :=
        match Js_obj.field "source" renderedBuilding,
              Js_obj.non_nullish (Js_obj.field "sourceLayer" renderedBuilding),
              Js_obj.non_nullish (feature_id renderedBuilding) with
        | Some sourceId, Some sourceLayer, Some featureId =>
            if Js_obj.truthy (Some sourceId)
            then try_filters w sourceId sourceLayer lngLat
                             (filters_to_try featureId)
            else None
        | _, _, _ => None
        end in
      match merged with
      | Some merged => Some merged
      | None => Some renderedBuilding
      end
  end.

(** [applyBuildingAtPoint(map, point, lngLat)], the handler of a click *)
Definition applyBuildingAtPoint (w : World) (point : float * float)
    (lngLat : Position) (u : UI) : UI :=
  let feature := getBuildingFeatureAtPoint w point lngLat in
  match feature, feature ≫= geometry with
  | Some feature, Some (Polygon _ as g)
  | Some feature, Some (MultiPolygon _ as g)
  | Some feature, Some (PolygonNoCoordinates as g) =>
      {| geoJSON := buildGeoJSONFromFeature feature (Some g);
         error := error u;
         isLoadingBuilding := false;
         highlight := showHighlight (Some g) |}
  | _, _ =>
      {| geoJSON := None; error := error u; isLoadingBuilding := false;
         highlight := None |}
  end.


End Click.

(** What the UI holds of a result that is returned: no error, the loading
    flag off; when the geometry is a Polygon or a MultiPolygon, its outline
    on the map and, in the panel, a GeoJSON of type Feature with that
    geometry and the properties of the result feature ([{}] when it has
    none); of a Polygon without coordinates the GeoJSON and no outline; of
    any other geometry nothing. *)
Definition displays (u : UI) (r : Result) : Prop :=
  error u = None ∧ isLoadingBuilding u = false
  ∧ match res_geometry r with
    | Some (Polygon _ as g) | Some (MultiPolygon _ as g) =>
        highlight u = Some g
        ∧ ∃ out, geoJSON u = Some out
            ∧ geometry out = Some g
            ∧ out !! "type"%string = Some (FJson (JStr "Feature"))
            ∧ out !! "properties"%string
              = Some match res_feature r !! "properties"%string with
                     | Some (FJson JNull) | None => FJson (JObj [])
                     | Some v => v
                     end
    | Some PolygonNoCoordinates =>
        highlight u = None
        ∧ ∃ out, geoJSON u = Some out
            ∧ geometry out = Some PolygonNoCoordinates
    | Some (OtherGeometry _) | None => highlight u = None ∧ geoJSON u = None
    end.

(** The outline on the map is that of the geometry in the panel, and a
    GeoJSON is shown without an outline exactly when its geometry is a
    Polygon without coordinates. *)
Definition outline_of_shown (u : UI) : Prop :=
  highlight u = showHighlight (geoJSON u ≫= geometry)
  ∧ (is_Some (geoJSON u) ∧ highlight u = None
     ↔ geoJSON u ≫= geometry = Some PolygonNoCoordinates).

(** What the UI holds when the run has failed. *)
Definition reports_no_building (u : UI) : Prop :=
  error u = Some NoBuildingFound ∧ isLoadingBuilding u = false
  ∧ geoJSON u = None ∧ highlight u = None.

Section CascadeVocabulary.
Context `{Turf} `{MapEngine}.
Variable clickPt : Position.

(** The flag of a visit is what the validation says of its candidate. *)
Definition flagged (v : Visit) : Prop :=
  validated v = match candidate v with
                | Some r => isPointInsideResult clickPt (res_geometry r)
                | None => false
                end.

(** What holds each time [tryNextZoom] is called. *)
Definition escalating (st : Cascade) : Prop :=
  zoomIndex st = length (log st)
  ∧ visit_zoom <$> log st = take (zoomIndex st) ZOOM_CASCADE
  ∧ (∀ v, v ∈ log st → validated v = false ∧ flagged v)
  ∧ bestResult st = last_candidate (log st)
  ∧ ui st = loading.

(** What holds when the run has ended. *)
Definition settled (final : Cascade) : Prop :=
  let visits := log final in
  visit_zoom <$> visits = take (length visits) ZOOM_CASCADE
  ∧ (∀ v, v ∈ visits → flagged v)
  ∧ (∀ k v, visits !! k = Some v → validated v = true →
       S k = length visits
       ∧ ∃ r, candidate v = Some r ∧ ui final = show r loading)
  ∧ bestResult final = last_candidate visits
  ∧ ((∀ v, v ∈ visits → validated v = false) →
       visit_zoom <$> visits = ZOOM_CASCADE
       ∧ ui final = match last_candidate visits with
                    | Some best => show best loading
                    | None => show_error loading
                    end).

End CascadeVocabulary.

(** ** A flat-earth implementation of [Turf]

    Coordinates are kilometres on a plane.  It is used to run the engine on
    concrete fragments; the union and the fragments whose centroid cannot
    be computed are left to the scenario. *)

Module Planar.

Definition fmin (a b : float) : float := if b <? a then b else a.
Definition fmax (a b : float) : float := if a <? b then b else a.

Definition position_eqb (p q : Position) : bool :=
  (p.1 =? q.1) && (p.2 =? q.2).

(** [turf.polygon] wants rings of four positions or more, first and last
    equal. *)
Definition ring_ok (r : Ring) : bool :=
  (4 <=? length r)%nat &&
  match r, last r with
  | p :: _, Some q => position_eqb p q
  | _, _ => false
  end.

Definition outer (c : PolygonCoords) : Ring := default [] (head c).

Fixpoint shoelace (r : Ring) : float :=
  match r with
  | (x1, y1) :: rest =>
      match rest with
      | (x2, y2) :: _ => (x1 * y2 - x2 * y1) + shoelace rest
      | [] => 0
      end
  | [] => 0
  end.

Definition ring_area (r : Ring) : float := abs (shoelace r) / 2.

Definition parts (g : Geometry) : list PolygonCoords :=
  match g with
  | Polygon c => [c]
  | MultiPolygon cs => cs
  | OtherGeometry _ | PolygonNoCoordinates => []
  end.

Definition area (g : Geometry) : Exc float :=
  Ok (foldr (λ c s, ring_area (outer c) + s) 0 (parts g)).

(** The vertices of the outer rings, closing vertex left out. *)
Definition vertices (g : Geometry) : list Position :=
  concat ((λ c, removelast (outer c)) <$> parts g).

Definition centroid (g : Geometry) : Exc Position :=
  match vertices g with
  | [] => Throw
  | vs =>
      let n := foldr (λ _ k, k + 1) 0 vs in
      Ok (foldr (λ p s, p.1 + s) 0 vs / n, foldr (λ p s, p.2 + s) 0 vs / n)
  end.

Definition distance (p q : Position) : Exc float :=
  let dx := p.1 - q.1 in
  let dy := p.2 - q.2 in
  Ok (sqrt (dx * dx + dy * dy)).

Definition booleanPointInPolygon (p : Position) (g : Geometry) : Exc bool :=
  match g with
  | OtherGeometry _ | PolygonNoCoordinates => Throw
  | _ => Ok (existsb (λ c, pointInRing p (outer c)) (parts g))
  end.

Definition bbox_of (vs : list Position) : BBox :=
  foldr (λ p b, let '(minX, minY, maxX, maxY) := b in
                (fmin p.1 minX, fmin p.2 minY, fmax p.1 maxX, fmax p.2 maxY))
        (infinity, infinity, neg_infinity, neg_infinity) vs.

Definition bbox (g : Geometry) : Exc BBox := Ok (bbox_of (vertices g)).

(** Two geometries meet when their bounding boxes do. *)
Definition booleanIntersects (a b : Geometry) : Exc bool :=
  let '(aMinX, aMinY, aMaxX, aMaxY) := bbox_of (vertices a) in
  let '(bMinX, bMinY, bMaxX, bMaxY) := bbox_of (vertices b) in
  Ok ((aMinX <=? bMaxX) && (bMinX <=? aMaxX)
      && (aMinY <=? bMaxY) && (bMinY <=? aMaxY)).

Definition rectangle (b : BBox) : PolygonCoords :=
  let '(minX, minY, maxX, maxY) := b in
  [[(minX, minY); (maxX, minY); (maxX, maxY); (minX, maxY); (minX, minY)]].

(** The bounding box grown by [r] metres. *)
Definition buffer (g : Geometry) (r : float) : Exc (option Geometry) :=
  let '(minX, minY, maxX, maxY) := bbox_of (vertices g) in
  let d := r / 1000 in
  Ok (Some (Polygon (rectangle (minX - d, minY - d, maxX + d, maxY + d)))).

(** The union of fragments that tile a rectangle is that rectangle. *)
Definition union_box (a b : Geometry) : Exc (option Geometry) :=
  Ok (Some (Polygon (rectangle (bbox_of (vertices a ++ vertices b))))).

(** The union left as its parts. *)
Definition union_parts (a b : Geometry) : Exc (option Geometry) :=
  Ok (Some (MultiPolygon (parts a ++ parts b))).

(** A union that comes back empty. *)
Definition union_null (a b : Geometry) : Exc (option Geometry) := Ok None.

Definition turf (union : Geometry → Geometry → Exc (option Geometry))
    (no_centroid : Geometry → bool) : Turf :=
  {| polygon_throws c := negb (forallb ring_ok c);
     point_throws p := is_nan p.1 || is_nan p.2;
     turf_area := area;
     turf_centroid g := if no_centroid g then Throw else centroid g;
     turf_distance := distance;
     turf_booleanPointInPolygon := booleanPointInPolygon;
     turf_booleanIntersects := booleanIntersects;
     turf_union := union;
     turf_cleanCoords g := Ok (Some g);
     turf_buffer := buffer;
     turf_bbox := bbox |}.

(** An axis-parallel square fragment with lower left corner [(x, y)]. *)
Definition square (x y side : float) : PolygonCoords :=
  rectangle (x, y, x + side, y + side).

(** A feature with an id and one geometry. *)
Definition feature (id : string) (g : Geometry) : Feature :=
  <["id"%string := FJson (JStr id)]>
  (<["type"%string := FJson (JStr "Feature")]>
   (<["geometry"%string := FGeometry g]> ∅)).

Definition s : float := 0.015625.      (* 1/64 km *)

End Planar.

(** ** Concrete fragments

    Squares of side 1/64 km in a row: [A], [B], [C] from west to east. *)

Module Scenario.
Import Planar.

Definition A : PolygonCoords := square 0 0 s.
Definition B : PolygonCoords := square s 0 s.
Definition C : PolygonCoords := square (2 * s) 0 s.

(** The centre of [A]. *)
Definition in_A : Position := (s / 2, s / 2).

(** The library at its best: every centroid computed, unions dissolved. *)
Definition flat : Turf := turf union_box (λ _, false).

(** The seed [A], the far end [C], then the middle [B]. *)
Definition chain : list Feature :=
  [feature "w1" (Polygon A); feature "w1" (Polygon C); feature "w1" (Polygon B)].

Definition pair : list Feature :=
  [feature "w1" (Polygon A); feature "w1" (Polygon B)].

(** The expansion over [chain], pass by pass, from the seed [A]. *)
Definition chain_fragments : Fragments := @extractPolygonCoords flat chain.

Definition chain_seed : Cluster :=
  {| members := [0%nat]; clusterArea := s * s; changed := true |}.

Definition chain_pass : Cluster → Cluster :=
  @scan flat chain_fragments.1 chain_fragments.2 in_A (s * s * 3) 0.05.

(** A library that cannot compute the centroid of a polygon whose first
    vertex lies at [x = s]: that of [B]. *)
Definition starts_at (x : float) (g : Geometry) : bool :=
  match vertices g with
  | p :: _ => p.1 =? x
  | [] => false
  end.

Definition lame : Turf := turf union_box (starts_at s).

(** A library whose unions come back empty. *)
Definition hollow : Turf := turf union_null (λ _, false).



(** A ring of three positions, which [turf.polygon] refuses, before [A]
    and [B]. *)
Definition open_ring : PolygonCoords := [[(0, 0); (s, 0); (0, 0)]].

Definition shifted : list Feature :=
  [feature "w1" (Polygon open_ring); feature "w1" (Polygon A);
   feature "w1" (Polygon B)].

(** [A] inside a square of twice its side. *)
Definition nested : list Feature :=
  [feature "w1" (Polygon (square 0 0 (2 * s))); feature "w1" (Polygon A)].

(** A feature that is no polygon. *)
Definition a_point : Feature := feature "w3" (OtherGeometry "Point").

(** [B] under another id, before [A]. *)
Definition mixed : list Feature :=
  [feature "w2" (Polygon B); feature "w1" (Polygon A)].

(** What [mixed] merges to around [in_A]: the first feature with the
    rectangle of [A] and [B]. *)
Definition mixed_merged : Feature :=
  with_geometry (feature "w2" (Polygon B))
                (Polygon (rectangle (0, 0, 2 * s, s))).

(** A distance limit of half a side. *)
Definition tight : Options :=
  {| areaMultiplier := None; maxDistanceKm := Some (s / 2) |}.

Definition chain_clustered (cl : Cluster) : Clustered :=
  {| allCoords := chain_fragments.1; turfPolys := chain_fragments.2;
     clickPt := in_A; seedIndex := 0; seedArea := s * s; seedCentroid := in_A;
     maxClusterArea := s * s * 3; maxDist := 0.05; cluster := cl |}.

(** The ring of [A] left open, which [turf.polygon] refuses; before [B],
    and as the one part of a feature. *)
Definition open_A : PolygonCoords := [[(0, 0); (s, 0); (s, s); (0, s)]].

Definition unclosed : list Feature :=
  [feature "w1" (Polygon open_A); feature "w1" (Polygon B)].

Definition lone_open : Feature := feature "w1" (MultiPolygon [open_A]).

(** A point far from the row. *)
Definition far_off : Position := (10, 10).

End Scenario.

(** ** A map to run the controller on

    The tiles hold a row of squares east of [A] under the id [w1], and a
    lone square [D] under the id [w9].  Below zoom 15 the feature rendered
    under the reference point is [D]; from zoom 15 on it is [A].  One more
    square of the row is loaded each time the camera is fitted to the
    bounds of what was merged. *)

Module Tiles.
Import Planar Scenario.

Record tiles : Type := {
  cam_zoom : float;
  fitted : nat;
}.

Definition D : PolygonCoords := square (4 * s) (4 * s) s.

(** The [k] squares of the row, [A] first. *)
Fixpoint row_from (x : float) (k : nat) : list PolygonCoords :=
  match k with
  | O => []
  | S k' => square x 0 s :: row_from (x + s) k'
  end.

Definition rendered (id : string) (c : PolygonCoords) : Feature :=
  <["layer"%string :=
      FJson (JObj [("id"%string, JStr "Building-3D");
                   ("type"%string, JStr "fill-extrusion")])]>
  (<["source"%string := FJson (JStr "openmaptiles")]>
   (<["sourceLayer"%string := FJson (JStr "building")]>
    (feature id (Polygon c)))).

Definition engine (row : nat) : MapEngine :=
  {| World := tiles;
     flyTo w _ zoom := {| cam_zoom := zoom; fitted := 0 |};
     fitBounds w _ _ := {| cam_zoom := cam_zoom w; fitted := S (fitted w) |};
     project _ p := p;
     queryRenderedFeatures w _ :=
       if cam_zoom w <? 15 then [rendered "w9" D] else [rendered "w1" A];
     querySourceFeatures w _ _ filter :=
       match filter with
       | FilterId (JStr id) =>
           if String.eqb id "w1" then
             Ok (Some ((λ c, feature "w1" (Polygon c))
                         <$> take (S (fitted w)) (row_from 0 row)))
           else if String.eqb id "w9" then Ok (Some [feature "w9" (Polygon D)])
           else Ok (Some [])
       | _ => Ok (Some [])
       end |}.

Definition view (row : nat) (zoom : float) (k : nat) : @World (engine row) :=
  {| cam_zoom := zoom; fitted := k |}.

Definition view_at (row : nat) (zoom : float) : @World (engine row) :=
  view row zoom 0.

(** The identity under which the row is queried. *)
Definition row_source : Json * Json * Filter :=
  (JStr "openmaptiles", JStr "building", FilterId (JStr "w1")).

(** The row of [k] squares merged into the first feature of the row. *)
Definition merged_row (k : float) : Result :=
  {| res_feature := with_geometry (feature "w1" (Polygon A))
                                  (Polygon (rectangle (0, 0, k * s, s)));
     res_geometry := Some (Polygon (rectangle (0, 0, k * s, s))) |}.

(** The lone square as a candidate. *)
Definition lone : Result :=
  {| res_feature := with_geometry (feature "w9" (Polygon D)) (Polygon D);
     res_geometry := Some (Polygon D) |}.

(** [runPass] about to be called for the first time, [A] merged. *)
Definition first_pass (row : nat) : @PassState (engine row) :=
  {| currentMerged := Some (feature "w1" (Polygon A));
     currentGeom := Some (Polygon A);
     prevDiagonal := 0; passNumber := 0; world := view_at row 17.5 |}.

(** Where a run over a row of three squares ends, from a view of the
    world at zoom 2: the rectangle of the row is outlined, and is the
    geometry of the GeoJSON in the panel. *)
Definition escalated : @Cascade (engine 3) :=
  {| zoomIndex := 2;
     bestResult := Some (merged_row 3);
     map := view 3 15.5 3;
     ui := {| geoJSON :=
                Some (<["type"%string := FJson (JStr "Feature")]>
                      (<["properties"%string := FJson (JObj [])]>
                       (<["geometry"%string :=
                            FGeometry (Polygon (rectangle (0, 0, 3 * s, s)))]>
                        ∅)));
              error := None;
              isLoadingBuilding := false;
              highlight := Some (Polygon (rectangle (0, 0, 3 * s, s))) |};
     log := [ {| visit_zoom := 13.5; candidate := Some lone;
                 validated := false |};
              {| visit_zoom := 15.5; candidate := Some (merged_row 3);
                 validated := true |} ] |}.

End Tiles.

(** ** More concrete cases *)

Module Cases.
Import Planar Scenario Tiles.

(** A unit square ring, closed. *)
Definition unit_ring : Ring := [(0, 0); (1, 0); (1, 1); (0, 1); (0, 0)].

(** [B] and [A] as the parts of one feature. *)
Definition two_parts : Feature := feature "w1" (MultiPolygon [B; A]).

(** [A] and the square of twice its side. *)
Definition A_and_double : list PolygonCoords := [A; square 0 0 (2 * s)].

(** Where the expansion over [chain] ends. *)
Definition chain_result : Clustered :=
  chain_clustered (chain_pass (chain_pass (chain_pass chain_seed))).

(** [A] and [C], which do not meet, and where the expansion over them
    ends: on the seed [A] alone. *)
Definition apart : list Feature :=
  [feature "w1" (Polygon A); feature "w1" (Polygon C)].

Definition apart_result : Clustered :=
  {| allCoords := [A; C];
     turfPolys := [Some (Polygon A); Some (Polygon C)];
     clickPt := in_A; seedIndex := 0; seedArea := s * s; seedCentroid := in_A;
     maxClusterArea := s * s * 3; maxDist := 0.05;
     cluster := {| members := [0%nat]; clusterArea := s * s;
                   changed := false |} |}.

(** A point far from the row. *)
Definition far_away : Position := (10, 10).

(** The state in which the first pass over a row of eight squares leaves
    the loop: [A] and [B] merged, the diagonal of [A] measured. *)
Definition second_pass : @PassState (engine 8) :=
  {| currentMerged := Some (res_feature (merged_row 2));
     currentGeom := res_geometry (merged_row 2);
     prevDiagonal := sqrt ((0 - s) * (0 - s) + (0 - s) * (0 - s));
     passNumber := 1; world := view 8 17.5 1 |}.

(** A rendered building whose MultiPolygon has no part, on a map that
    shows only this feature and has no source to query; and where a
    lookup ends on it: the four levels tried, a GeoJSON in the panel and no
    outline. *)
Definition partless : Feature :=
  <["layer"%string := FJson (JObj [("id"%string, JStr "building")])]>
  (feature "w0" (MultiPolygon [])).

Definition bare : MapEngine :=
  {| World := tiles;
     flyTo w _ zoom := {| cam_zoom := zoom; fitted := 0 |};
     fitBounds w _ _ := {| cam_zoom := cam_zoom w; fitted := S (fitted w) |};
     project _ p := p;
     queryRenderedFeatures _ _ := [partless];
     querySourceFeatures _ _ _ _ := Ok (Some []) |}.

Definition bare_view (zoom : float) : @World bare :=
  {| cam_zoom := zoom; fitted := 0 |}.

Definition partless_result : Result :=
  {| res_feature := partless; res_geometry := Some PolygonNoCoordinates |}.

Definition partless_visit (zoom : float) : Visit :=
  {| visit_zoom := zoom; candidate := Some partless_result;
     validated := false |}.

Definition partless_final : @Cascade bare :=
  {| zoomIndex := 4;
     bestResult := Some partless_result;
     map := bare_view 19.5;
     ui := {| geoJSON :=
                Some (<["type"%string := FJson (JStr "Feature")]>
                      (<["properties"%string := FJson (JObj [])]>
                       (<["geometry"%string :=
                            FGeometry PolygonNoCoordinates]> ∅)));
              error := None;
              isLoadingBuilding := false;
              highlight := None |};
     log := partless_visit <$> [13.5; 15.5; 17.5; 19.5] |}.

End Cases.

(** ** What the properties below speak of *)

Section Vocabulary.
Context `{Turf}.
Variable coords : list PolygonCoords.
Variable polys : list (option Geometry).
Variable clickPt : Position.

(** Fragment [i] has a Turf polygon that contains the reference point, of
    area [a]. *)
Definition contains_with_area (i : nat) (a : float) : Prop :=
  ∃ p, poly_at polys i = Some p
    ∧ turf_booleanPointInPolygon clickPt p = Ok true
    ∧ turf_area p = Ok a.

(** The centroid of fragment [i] is [d] kilometres from the reference
    point. *)
Definition centroid_at_distance (i : nat) (d : float) : Prop :=
  ∃ p c, poly_at polys i = Some p
    ∧ turf_centroid p = Ok c
    ∧ turf_distance clickPt c = Ok d.

(** No fragment contains the reference point with an area below
    [Infinity]. *)
Definition no_containing : Prop :=
  ∀ i a, i < length coords → contains_with_area i a → (a <? infinity) = false.

(** The members of a cluster are distinct indices of [allCoords]. *)
Definition in_range (st : Cluster) : Prop :=
  NoDup (members st) ∧ ∀ i, i ∈ members st → i < length coords.

End Vocabulary.

(** The raw outer ring of fragment [i] contains the point, by ray
    casting: [allCoords[i]?.[0] && pointInRing([lng, lat], allCoords[i][0])]. *)
Definition ring_contains (coords : list PolygonCoords) (lngLat : Position)
    (i : nat) : Prop :=
  ∃ ring holes, coords !! i = Some (ring :: holes)
    ∧ pointInRing lngLat ring = true.

(** [best] has the least key among the indices [l], [val]; or no index of
    [l] has a key below [Infinity]. *)
Definition least_key (key : nat → float → Prop) (l : list nat)
    (best : option nat) (val : float) : Prop :=
  match best with
  | None =>
      val = infinity ∧ ∀ j v, j ∈ l → key j v → (v <? infinity) = false
  | Some s =>
      s ∈ l ∧ key s val ∧ (val <? infinity) = true
      ∧ ∀ j v, j ∈ l → key j v → (v <? val) = false
  end.

(** The cluster at the start of a pass: [changed = false]. *)
Definition reset (st : Cluster) : Cluster :=
  {| members := members st; clusterArea := clusterArea st; changed := false |}.

(** ** What the further properties speak of *)

(** The exterior ring of [c] contains [p], by ray casting. *)
Definition exterior_contains (p : Position) (c : PolygonCoords) : Prop :=
  ∃ ring holes, c = ring :: holes ∧ pointInRing p ring = true.

(** The type of the geometry is ['Polygon']. *)
Definition type_Polygon (g : Geometry) : Prop :=
  match g with
  | Polygon _ | PolygonNoCoordinates => True
  | MultiPolygon _ | OtherGeometry _ => False
  end.

(** The entries of [turfPolys] that are [null]. *)
Definition refused (polys : list (option Geometry)) : nat :=
  length (filter (λ p, p = None) polys).

(** The parts of a MultiPolygon feature as Polygon features. *)
Definition split_feature (f : Feature) (parts : list PolygonCoords)
    : list Feature :=
  (λ c, with_geometry f (Polygon c)) <$> parts.

(** The ring [c] is the Polygon of a feature of [features] or a part of
    its MultiPolygon. *)
Definition ring_of (features : list Feature) (c : PolygonCoords) : Prop :=
  ∃ f, f ∈ features
    ∧ (geometry f = Some (Polygon c)
       ∨ ∃ parts, geometry f = Some (MultiPolygon parts) ∧ c ∈ parts).

Section FlattenVocabulary.
Context `{Turf}.

(** Two pairs of arrays, one after the other. *)
Definition fragments_app (a b : Fragments) : Fragments :=
  (a.1 ++ b.1, a.2 ++ b.2).

(** The loop of [extractPolygonCoords] over the parts of a
    MultiPolygon. *)
Definition push_parts (acc : Fragments) (parts : list PolygonCoords)
    : Fragments :=
  foldl (λ acc polygonCoords,
           if has_outer_ring polygonCoords
           then push_fragment acc polygonCoords else acc)
        acc parts.

(** What holds of the two arrays all along: [coords] is longer than
    [turfPolys] by the number of rings refused, every ring kept comes from
    [source] and has a first ring that is not empty, every Turf polygon is
    a ring of [coords] that [turf.polygon] accepted, while no ring is
    refused [turfPolys] holds the Turf polygons of the rings of [coords],
    index by index, and a ring refused is in [coords] twice in a row. *)
Definition flattened (source : PolygonCoords → Prop) (acc : Fragments) : Prop :=
  length acc.1 = (length acc.2 + refused acc.2)%nat
  ∧ (∀ c, c ∈ acc.1 → has_outer_ring c = true ∧ source c)
  ∧ (∀ p, Some p ∈ acc.2 →
       ∃ c, p = Polygon c ∧ c ∈ acc.1 ∧ polygon_throws c = false)
  ∧ ((∀ c, c ∈ acc.1 → polygon_throws c = false) →
       acc.2 = (λ c, Some (Polygon c)) <$> acc.1)
  ∧ (∀ c, c ∈ acc.1 → polygon_throws c = true →
       ∃ i, acc.1 !! i = Some c ∧ acc.1 !! S i = Some c).

End FlattenVocabulary.

Section MergeVocabulary.
Context `{Turf}.
Variable coords : list PolygonCoords.
Variable polys : list (option Geometry).
Variable clickPt : Position.

(** The areas of the members of a cluster, added up in the order in which
    they joined. *)
Definition running_area (ms : list nat) : float :=
  match ms with
  | [] => 0
  | seed :: joined =>
      foldl (λ a i, a + candidateArea coords polys i)
            (candidateArea coords polys seed) joined
  end.


Definition is_Polygon (g : Geometry) : Prop := ∃ c, g = Polygon c.

(** A Polygon, or a MultiPolygon that has a part. *)
Definition polygonal (g : Geometry) : Prop :=
  match g with
  | Polygon _ => True
  | MultiPolygon parts => parts ≠ []
  | OtherGeometry _ | PolygonNoCoordinates => False
  end.

(** The part [c] of a union makes a Turf polygon that contains the
    point. *)
Definition part_contains (c : PolygonCoords) : Prop :=
  ∃ p, turf_polygon c = Ok p ∧ turf_booleanPointInPolygon clickPt p = Ok true.

(** The part [c] makes a Turf polygon that does not contain the point and
    has the area [a]. *)
Definition part_area (c : PolygonCoords) (a : float) : Prop :=
  ∃ p, turf_polygon c = Ok p
    ∧ turf_booleanPointInPolygon clickPt p = Ok false
    ∧ turf_area p = Ok a.

(** What the loop over the parts knows of those it has seen: none had an
    area above zero, or the best so far is a part with the area [bestArea],
    above zero, that none exceeds. *)
Definition best_so_far (seen : list PolygonCoords) (bestIdx : nat)
    (bestArea : float) : Prop :=
  (∀ j c a, seen !! j = Some c → part_area c a → Js.gt a bestArea = false)
  ∧ ((bestIdx = 0%nat ∧ bestArea = 0)
     ∨ (∃ c, seen !! bestIdx = Some c ∧ part_area c bestArea
          ∧ Js.gt bestArea 0 = true)).

End MergeVocabulary.


(** * Properties *)

(** ** The order of JS numbers

    [<] on binary64 values is irreflexive and transitive, [NaN] included
    (no comparison with it holds). *)

Lemma pos_compare_cont_lt_trans (m1 m2 m3 : positive) :
  Pos.compare_cont Eq m1 m2 = Lt → Pos.compare_cont Eq m2 m3 = Lt →
  Pos.compare_cont Eq m1 m3 = Lt.
Proof.
  change (Pos.compare_cont Eq) with Pos.compare.
  rewrite !Pos.compare_lt_iff. lia.
Qed.

Lemma pos_compare_cont_gt_trans (m1 m2 m3 : positive) :
  Pos.compare_cont Eq m1 m2 = Gt → Pos.compare_cont Eq m2 m3 = Gt →
  Pos.compare_cont Eq m1 m3 = Gt.
Proof.
  change (Pos.compare_cont Eq) with Pos.compare.
  rewrite !Pos.compare_gt_iff. lia.
Qed.

Lemma SFcompare_lt_trans (x y z : spec_float) :
  SFcompare x y = Some Lt → SFcompare y z = Some Lt → SFcompare x z = Some Lt.
Proof.
  destruct x as [sx|sx| |sx mx ex], y as [sy|sy| |sy my ey],
           z as [sz|sz| |sz mz ez];
    simpl; try discriminate; try (destruct sx; discriminate);
    try (destruct sx, sy, sz; simpl; congruence).
  destruct sx, sy, sz; simpl; try congruence.
  - destruct (Z.compare_spec ex ey), (Z.compare_spec ey ez),
             (Z.compare_spec ex ez); try congruence; try lia; subst.
    destruct (Pos.compare_cont Eq mx my) eqn:E1; simpl; try discriminate.
    destruct (Pos.compare_cont Eq my mz) eqn:E2; simpl; try discriminate.
    by rewrite (pos_compare_cont_gt_trans _ _ _ E1 E2).
  - destruct (Z.compare_spec ex ey), (Z.compare_spec ey ez),
             (Z.compare_spec ex ez); try congruence; try lia; subst.
    intros E1 E2. f_equal.
    eapply pos_compare_cont_lt_trans; [injection E1|injection E2]; eauto.
Qed.

Lemma SFcompare_irrefl (x : spec_float) : SFcompare x x ≠ Some Lt.
Proof.
  destruct x as [sx|sx| |sx m e]; simpl; try discriminate;
    try (destruct sx; discriminate).
  destruct sx; rewrite Z.compare_refl;
    change (Pos.compare_cont Eq) with Pos.compare;
    rewrite Pos.compare_refl; discriminate.
Qed.

Lemma float_ltb_trans (x y z : float) :
  (x <? y) = true → (y <? z) = true → (x <? z) = true.
Proof.
  rewrite !FloatAxioms.ltb_spec. unfold SFltb.
  destruct (SFcompare (Prim2SF x) (Prim2SF y)) as [[]|] eqn:E1; try discriminate.
  destruct (SFcompare (Prim2SF y) (Prim2SF z)) as [[]|] eqn:E2; try discriminate.
  by rewrite (SFcompare_lt_trans _ _ _ E1 E2).
Qed.

Lemma float_ltb_irrefl (x : float) : (x <? x) = false.
Proof.
  rewrite FloatAxioms.ltb_spec. unfold SFltb.
  pose proof (SFcompare_irrefl (Prim2SF x)).
  destruct (SFcompare _ _) as [[]|]; congruence.
Qed.

(** ** Exceptions *)

Lemma Exc_bind_Ok {A B} (m : Exc A) (f : A → Exc B) (b : B) :
  m ≫= f = Ok b ↔ ∃ a, m = Ok a ∧ f a = Ok b.
Proof.
  destruct m as [a|]; simpl; split.
  - intros E. by exists a.
  - by intros (a' & [= <-] & E).
  - done.
  - by intros (a' & ? & _).
Qed.

(** Invert the binds and the matches of a computation that returned. *)
Ltac exc_inv :=
  repeat match goal with
         | E : _ ≫= _ = Ok _ |- _ => apply Exc_bind_Ok in E as (? & ? & E)
         | _ => case_match
         end;
  simplify_eq.

(** ** The result of a merge is the first feature, its geometry apart *)

Section MergeFrame.
Context `{Turf}.

Lemma pickOrMerge_shape features lngLat options r :
  pickOrMergeSourceFeatures features lngLat options = Ok (Some r) →
  ∃ feature0, features !! 0%nat = Some feature0 ∧
    (r = feature0 ∨ ∃ g, r = with_geometry feature0 g).
Proof.
  unfold pickOrMergeSourceFeatures, cluster_stage.
  destruct features as [|feature0 rest]; [done|].
  intros E. exists feature0. split; [done|].
  destruct (extractPolygonCoords _) as [coords polys].
  exc_inv; eauto.
Qed.

(** C10.  Whatever fragment the seed came from, a result of the merge
    agrees with the first input feature on every key but [geometry]. *)
Theorem merge_keeps_first_feature_fields
    (features : list Feature) (lngLat : Position) (options : Options)
    (r : Feature) :
  pickOrMergeSourceFeatures features lngLat options = Ok (Some r) →
  ∃ feature0, features !! 0%nat = Some feature0 ∧
    ∀ k : string, k ≠ "geometry"%string → r !! k = feature0 !! k.
Proof.
  intros E. apply pickOrMerge_shape in E as (feature0 & E0 & [->|[g ->]]);
    exists feature0; split; try done.
  intros k Hk. unfold with_geometry. by rewrite lookup_insert_ne.
Qed.

(** C9.  Flattening comes first: the merge depends on its input only
    through the first feature and the flattened fragments.  With no
    fragment the first feature comes back as it is.  With exactly one, the
    result is the first feature with the geometry Polygon of that fragment
    in place of its own, whatever the geometry library says of the
    fragment; [turf.point] is called before, and its exception is that of
    the merge.  A single part that [turf.polygon] refuses is not one
    fragment but two, the ring twice: then the result is the Polygon of the
    ring when the ring contains the point by ray casting, and the first
    feature as it is when it does not. *)
Theorem flatten_first
    (feature0 : Feature) (rest : list Feature) (lngLat : Position)
    (options : Options) :
  let features := feature0 :: rest in
  let coords := (extractPolygonCoords features).1 in
  (coords = [] →
     pickOrMergeSourceFeatures features lngLat options = Ok (Some feature0))
  ∧ (∀ c, coords = [c] → point_throws lngLat = false →
       ∃ r, pickOrMergeSourceFeatures features lngLat options = Ok (Some r)
         ∧ r = with_geometry feature0 (Polygon c)
         ∧ geometry r = Some (Polygon c)
         ∧ ∀ k : string, k ≠ "geometry"%string → r !! k = feature0 !! k)
  ∧ (∀ c, coords = [c] → point_throws lngLat = true →
       pickOrMergeSourceFeatures features lngLat options = Throw)
  ∧ (∀ rest', extractPolygonCoords (feature0 :: rest')
              = extractPolygonCoords features →
       pickOrMergeSourceFeatures (feature0 :: rest') lngLat options
       = pickOrMergeSourceFeatures features lngLat options)
  ∧ (∀ c, extractPolygonCoords features = ([c; c], [None]) →
       point_throws lngLat = false →
       (exterior_contains lngLat c →
          ∃ r, pickOrMergeSourceFeatures features lngLat options = Ok (Some r)
            ∧ geometry r = Some (Polygon c)
            ∧ ∀ k : string, k ≠ "geometry"%string → r !! k = feature0 !! k)
       ∧ (¬ exterior_contains lngLat c →
            pickOrMergeSourceFeatures features lngLat options
            = Ok (Some feature0))).
Proof.
  intros features coords. subst coords features.
  assert (∀ g, geometry (with_geometry feature0 g) = Some g
               ∧ ∀ k : string, k ≠ "geometry"%string →
                   with_geometry feature0 g !! k = feature0 !! k) as Hwith.
  { intros g. unfold geometry, with_geometry. rewrite lookup_insert_eq.
    split; [done|]. intros k Hk. by rewrite lookup_insert_ne. }
  unfold pickOrMergeSourceFeatures, cluster_stage. split_and!.
  - destruct (extractPolygonCoords _) as [coords polys]; simpl.
    by intros ->.
  - destruct (extractPolygonCoords _) as [coords polys]; simpl.
    intros c -> Hpt. unfold turf_point. rewrite Hpt. simpl.
    eexists. split; [done|]. split; [done|]. apply Hwith.
  - destruct (extractPolygonCoords _) as [coords polys]; simpl.
    intros c -> Hpt. unfold turf_point. by rewrite Hpt.
  - by intros rest' ->.
  - intros c -> Hpt. unfold turf_point. rewrite Hpt. simpl.
    unfold select_seed, seed_by_raycast, seed_by_nearest. simpl.
    unfold raycast_hit. simpl.
    destruct c as [|ring holes].
    { simpl. split; [by intros (? & ? & ? & _)|done]. }
    destruct (pointInRing lngLat ring) eqn:Hin; simpl.
    + split; [|intros []; by exists ring, holes].
      intros _. eexists. split; [done|]. apply Hwith.
    + split; [|done]. intros (r & h & [= <- <-] & Hin'). congruence.
Qed.

End MergeFrame.

(** ** Validation of a candidate *)

Section Validation.
Context `{Turf}.

(** C7.  A candidate is accepted exactly when the direct containment
    check answers yes, or answers no and the check on the polygon
    buffered by 10 metres answers yes; a missing geometry, a missing
    buffer and a check that throws all give [false]. *)
Theorem validation_direct_or_buffered (clickPt : Position) (g : Geometry) :
  (isPointInsideResult clickPt (Some g) = true ↔
     turf_booleanPointInPolygon clickPt g = Ok true
     ∨ (turf_booleanPointInPolygon clickPt g = Ok false
        ∧ ∃ buffered, turf_buffer g 10 = Ok (Some buffered)
            ∧ turf_booleanPointInPolygon clickPt buffered = Ok true))
  ∧ (turf_booleanPointInPolygon clickPt g = Throw →
       isPointInsideResult clickPt (Some g) = false)
  ∧ (turf_booleanPointInPolygon clickPt g = Ok false →
       turf_buffer g 10 = Throw →
       isPointInsideResult clickPt (Some g) = false)
  ∧ (∀ buffered, turf_booleanPointInPolygon clickPt g = Ok false →
       turf_buffer g 10 = Ok (Some buffered) →
       turf_booleanPointInPolygon clickPt buffered = Throw →
       isPointInsideResult clickPt (Some g) = false)
  ∧ isPointInsideResult clickPt None = false.
Proof.
  unfold isPointInsideResult, POINT_BUFFER_M.
  repeat split.
  - destruct (turf_booleanPointInPolygon clickPt g) as [[]|]; simpl;
      [by left| |done].
    destruct (turf_buffer g 10) as [[b|]|]; simpl; try done.
    destruct (turf_booleanPointInPolygon clickPt b) as [[]|] eqn:Eb;
      simpl; try done.
    intros _. right. split; [done|]. by exists b.
  - intros [->|(-> & b & -> & Eb)]; simpl; [done|]. by rewrite Eb.
  - by intros ->.
  - by intros -> ->.
  - intros b -> -> Eb; simpl. by rewrite Eb.
Qed.

End Validation.

(** ** Loops that keep the least key seen so far *)

Section LeastKey.
Variable key : nat → float → Prop.
Hypothesis key_fun : ∀ i v v', key i v → key i v' → v = v'.
Variable St : Type.
Variable best : St → option nat.
Variable val : St → float.
Variable step : St → nat → St.
Hypothesis step_cases : ∀ st i,
  (∃ v, key i v ∧
     if v <? val st
     then best (step st i) = Some i ∧ val (step st i) = v
     else step st i = st)
  ∨ ((∀ v, ¬ key i v) ∧ step st i = st).

Lemma least_key_step (l : list nat) (st : St) (i : nat) :
  least_key key l (best st) (val st) →
  least_key key (l ++ [i]) (best (step st i)) (val (step st i)).
Proof.
  intros Hst.
  assert (∀ j v, j ∈ l → key j v → (v <? val st) = false) as Hall.
  { unfold least_key in Hst. destruct (best st).
    - by destruct Hst as (_ & _ & _ & ?).
    - destruct Hst as (-> & ?). done. }
  assert (∀ v, (v <? val st) = true → (v <? infinity) = true) as Hinf.
  { unfold least_key in Hst. destruct (best st).
    - destruct Hst as (_ & _ & Hm & _). intros v Hv. by eapply float_ltb_trans.
    - by destruct Hst as (-> & ?). }
  assert (∀ st', step st i = st' → st' = st →
            (∀ v, key i v → (v <? val st) = false) →
            least_key key (l ++ [i]) (best st') (val st')) as Hsame.
  { intros st' _ -> Hi. unfold least_key in *. destruct (best st) as [s|].
    - destruct Hst as (Hs & Hk & Hm & _). split_and!; try done.
      { apply elem_of_app. by left. }
      intros j v [Hj| ->%list_elem_of_singleton]%elem_of_app Hv; eauto.
    - destruct Hst as (Hval & Hnone). split; [done|]. rewrite Hval in Hi.
      intros j v [Hj| ->%list_elem_of_singleton]%elem_of_app Hv; eauto. }
  destruct (step_cases st i) as [(v & Hk & Hstep)|[Hno Hstep]].
  - destruct (v <? val st) eqn:Hlt.
    + destruct Hstep as [-> ->]. unfold least_key. split_and!; auto.
      * apply elem_of_app. right. by left.
      * intros j w [Hj| ->%list_elem_of_singleton]%elem_of_app Hw.
        -- destruct (w <? v) eqn:Hwv; [|done].
           rewrite <- (Hall j w Hj Hw). symmetry. by eapply float_ltb_trans.
        -- rewrite (key_fun _ _ _ Hw Hk). apply float_ltb_irrefl.
    + eapply Hsame; [done..|]. intros w Hw. by rewrite (key_fun _ _ _ Hw Hk).
  - eapply Hsame; [done..|]. intros w Hw. by destruct (Hno w).
Qed.

Lemma least_key_foldl (l done : list nat) (st : St) :
  least_key key done (best st) (val st) →
  least_key key (done ++ l) (best (foldl step st l)) (val (foldl step st l)).
Proof.
  revert done st. induction l as [|i l IH]; intros done st Hst; simpl.
  - by rewrite app_nil_r.
  - replace (done ++ i :: l) with ((done ++ [i]) ++ l) by by rewrite <- app_assoc.
    apply IH. by apply least_key_step.
Qed.

End LeastKey.

(** ** Seed selection *)

Section SeedSelection.
Context `{Turf}.
Variable coords : list PolygonCoords.
Variable polys : list (option Geometry).
Variable lngLat clickPt : Position.

#[local] Abbreviation n := (length coords).
#[local] Abbreviation contains := (contains_with_area polys clickPt).
#[local] Abbreviation near := (centroid_at_distance polys clickPt).

Lemma elem_of_indices (i : nat) : i ∈ indices coords ↔ i < n.
Proof. unfold indices. rewrite elem_of_seq. lia. Qed.

Lemma seed_by_containment_spec :
  let st := seed_by_containment coords polys clickPt in
  least_key contains (indices coords) st.1 st.2.
Proof.
  apply (least_key_foldl contains) with (done := []) (st := (None, infinity))
    (best := fst) (val := snd).
  - intros i v v' (p & ? & ? & ?) (p' & ? & ? & ?). congruence.
  - intros st i. unfold seed_contain_step, contains_with_area.
    destruct (poly_at polys i) as [p|] eqn:Ep;
      [|right; split; [intros a (? & ? & _); done|done]].
    destruct (turf_booleanPointInPolygon clickPt p) as [[]|] eqn:Ei; simpl;
      try (right; split; [intros a (? & ? & ? & _); congruence|done]).
    destruct (turf_area p) as [a|] eqn:Ea; simpl.
    + left. exists a. split; [by exists p|]. by destruct (a <? st.2).
    + right. split; [intros a (? & ? & ? & ?); congruence|done].
  - split; [done|]. by intros j a ?%elem_of_nil.
Qed.

Lemma seed_by_nearest_spec (a0 : float) :
  let st := foldl (seed_nearest_step polys clickPt) (infinity, (None, a0))
                  (indices coords) in
  least_key near (indices coords) st.2.1 st.1.
Proof.
  apply (least_key_foldl near) with (done := []) (st := (infinity, (None, a0)))
    (best := λ st, st.2.1) (val := fst).
  - intros i v v' (p & c & ? & ? & ?) (p' & c' & ? & ? & ?). congruence.
  - intros st i. unfold seed_nearest_step, centroid_at_distance.
    destruct (poly_at polys i) as [p|] eqn:Ep;
      [|right; split; [intros a (? & ? & ? & _); done|done]].
    destruct (turf_centroid p) as [c|] eqn:Ec; simpl;
      [|right; split; [intros a (? & ? & ? & ? & _); congruence|done]].
    destruct (turf_distance clickPt c) as [d|] eqn:Ed; simpl.
    + left. exists d. split; [by exists p, c|].
      unfold Seed in *. by destruct (d <? st.1).
    + right. split; [intros a (? & ? & ? & ? & ?); congruence|done].
  - split; [done|]. by intros j a ?%elem_of_nil.
Qed.


Lemma find_seq_first (f : nat → bool) (a len i : nat) :
  a ≤ i < a + len → f i = true → (∀ j, a ≤ j < i → f j = false) →
  List.find f (seq a len) = Some i.
Proof.
  revert a. induction len as [|len IH]; intros a Hi Hf Hbefore; [lia|].
  simpl. destruct (decide (a = i)) as [->|Hne]; [by rewrite Hf|].
  rewrite Hbefore by lia. apply IH; [lia|done|]. intros j Hj. apply Hbefore. lia.
Qed.

Lemma find_seq_none (f : nat → bool) (a len : nat) :
  (∀ j, a ≤ j < a + len → f j = false) → List.find f (seq a len) = None.
Proof.
  revert a. induction len as [|len IH]; intros a Hall; [done|].
  simpl. rewrite Hall by lia. apply IH. intros j Hj. apply Hall. lia.
Qed.

Lemma containment_found (i : nat) (a : float) :
  i < n → contains i a → (a <? infinity) = true →
  ∃ s a_s, seed_by_containment coords polys clickPt = (Some s, a_s)
    ∧ s < n ∧ contains s a_s
    ∧ ∀ j a_j, j < n → contains j a_j → (a_j <? a_s) = false.
Proof.
  intros Hi Hc Ha. pose proof seed_by_containment_spec as Hspec. simpl in Hspec.
  destruct (seed_by_containment coords polys clickPt) as [[s|] a_s];
    unfold least_key in Hspec; simpl in Hspec.
  - destruct Hspec as (Hs & Hcs & _ & Hmin). exists s, a_s.
    split_and!; [done|by apply elem_of_indices|done|].
    intros j a_j Hj. apply Hmin. by apply elem_of_indices.
  - destruct Hspec as (_ & Hnone).
    rewrite (Hnone i a) in Ha; [done|by apply elem_of_indices|done].
Qed.

Lemma containment_not_found :
  no_containing coords polys clickPt → seed_by_containment coords polys clickPt = (None, infinity).
Proof.
  intros Hno. pose proof seed_by_containment_spec as Hspec. simpl in Hspec.
  destruct (seed_by_containment coords polys clickPt) as [[s|] a_s];
    unfold least_key in Hspec; simpl in Hspec.
  - destruct Hspec as (Hs & Hcs & Hlt & _).
    rewrite (Hno s a_s) in Hlt; [done|by apply elem_of_indices|done].
  - by destruct Hspec as (-> & _).
Qed.


Lemma select_seed_contained (s : nat) (a_s : float) :
  seed_by_containment coords polys clickPt = (Some s, a_s) →
  select_seed coords polys lngLat clickPt = Ok (Some s, a_s).
Proof. unfold select_seed. by intros ->. Qed.

Lemma select_seed_raycast (i : nat) :
  no_containing coords polys clickPt →
  List.find (raycast_hit coords lngLat) (indices coords) = Some i →
  select_seed coords polys lngLat clickPt
  = (seedArea ← match poly_at polys i with
                 | Some poly => turf_area poly
                 | None => Ok 0
                 end;
     Ok (Some i, seedArea)).
Proof.
  intros Hno Hfind. unfold select_seed, seed_by_raycast.
  rewrite (containment_not_found Hno), Hfind. simpl.
  by destruct (match poly_at polys i with Some _ => _ | None => _ end).
Qed.

Lemma select_seed_nearest :
  no_containing coords polys clickPt →
  List.find (raycast_hit coords lngLat) (indices coords) = None →
  select_seed coords polys lngLat clickPt
  = Ok (seed_by_nearest coords polys clickPt (None, infinity)).
Proof.
  intros Hno Hfind. unfold select_seed, seed_by_raycast.
  by rewrite (containment_not_found Hno), Hfind.
Qed.

(** A seed is an index of [allCoords]. *)
Lemma select_seed_lt (s : nat) (a_s : float) :
  select_seed coords polys lngLat clickPt = Ok (Some s, a_s) → s < n.
Proof.
  unfold select_seed. intros E.
  pose proof seed_by_containment_spec as Ha. simpl in Ha.
  destruct (seed_by_containment coords polys clickPt) as [[s'|] a'] eqn:Ec;
    simpl in *.
  - injection E as -> ->. destruct Ha as (Hs & _). by apply elem_of_indices.
  - unfold seed_by_raycast in E.
    destruct (List.find _ _) as [i|] eqn:Hfind; simpl in E.
    + apply find_some in Hfind as [Hin _].
      apply list_elem_of_In, elem_of_indices in Hin.
      destruct (match poly_at polys i with Some _ => _ | None => _ end);
        simpl in E; by simplify_eq.
    + unfold seed_by_nearest in E.
      pose proof (seed_by_nearest_spec a') as Hn. simpl in Hn.
      destruct (foldl _ _ _) as [d [[s'|] b]]; simpl in *; simplify_eq.
      destruct Hn as (Hs & _). by apply elem_of_indices.
Qed.

(** The test of the second loop is the ray casting on the raw outer
    ring. *)
Lemma raycast_hit_spec (i : nat) :
  raycast_hit coords lngLat i = true ↔ ring_contains coords lngLat i.
Proof.
  unfold raycast_hit, ring_contains. split.
  - destruct (coords !! i) as [[|ring holes]|]; try done.
    intros Hin. by exists ring, holes.
  - intros (ring & holes & -> & Hin). done.
Qed.

Lemma raycast_miss_spec (i : nat) :
  raycast_hit coords lngLat i = false ↔ ¬ ring_contains coords lngLat i.
Proof.
  rewrite <- raycast_hit_spec. by destruct (raycast_hit coords lngLat i).
Qed.

(** C4.  The seed is chosen in three steps, the first that succeeds wins:
    (a) when a fragment contains the reference point, with an area below
    [Infinity], the seed is a containing fragment of least area;
    (b) otherwise the first fragment whose raw outer ring contains the point
    by the ray casting of [pointInRing], as long as its area can be
    computed;
    (c) otherwise the fragment whose centroid is nearest to the point, when
    some centroid has a distance;
    and when all three find nothing, the merge returns the first feature as
    it is. *)
Theorem seed_selection_precedence :
  (∀ i a, i < n → contains i a → (a <? infinity) = true →
     ∃ s a_s, select_seed coords polys lngLat clickPt = Ok (Some s, a_s)
       ∧ s < n ∧ contains s a_s
       ∧ ∀ j a_j, j < n → contains j a_j → (a_j <? a_s) = false)
  ∧ (no_containing coords polys clickPt →
     ∀ i ring holes, coords !! i = Some (ring :: holes) →
          pointInRing lngLat ring = true →
          (∀ j ring' holes', j < i → coords !! j = Some (ring' :: holes') →
             pointInRing lngLat ring' = false) →
       ∀ a_i, match poly_at polys i with
              | Some poly => turf_area poly
              | None => Ok 0
              end = Ok a_i →
         select_seed coords polys lngLat clickPt = Ok (Some i, a_i))
  ∧ (no_containing coords polys clickPt →
     (∀ i ring holes, coords !! i = Some (ring :: holes) →
        pointInRing lngLat ring = false) →
     ∃ st, select_seed coords polys lngLat clickPt = Ok st ∧
       match st.1 with
       | Some s =>
           s < n ∧ ∃ d, near s d ∧ (d <? infinity) = true
             ∧ ∀ j d', j < n → near j d' → (d' <? d) = false
       | None => ∀ j d, j < n → near j d → (d <? infinity) = false
       end)
  ∧ (∀ feature0 rest options a,
       extractPolygonCoords (feature0 :: rest) = (coords, polys) →
       1 < n → turf_point lngLat = Ok clickPt →
       select_seed coords polys lngLat clickPt = Ok (None, a) →
       pickOrMergeSourceFeatures (feature0 :: rest) lngLat options
       = Ok (Some feature0)).
Proof.
  split_and!.
  - intros i a Hi Hc Ha.
    destruct (containment_found i a Hi Hc Ha) as (s & a_s & Es & Hrest).
    exists s, a_s. split; [by apply select_seed_contained|done].
  - intros Hno i ring holes Hi Hhit Hfirst a_i Ha.
    rewrite (select_seed_raycast i Hno).
    + by rewrite Ha.
    + apply find_seq_first.
      * assert (i < n) by (by eapply lookup_lt_Some). lia.
      * apply raycast_hit_spec. by exists ring, holes.
      * intros j Hj. apply raycast_miss_spec.
        intros (ring' & holes' & Hj' & Hin).
        rewrite (Hfirst j ring' holes') in Hin; [done|lia|done].
  - intros Hno Hmiss. eexists. split.
    + apply (select_seed_nearest Hno). apply find_seq_none.
      intros j Hj. apply raycast_miss_spec.
      intros (ring & holes & Hj' & Hin).
      by rewrite (Hmiss j ring holes) in Hin.
    + unfold seed_by_nearest. pose proof (seed_by_nearest_spec infinity) as Hn.
      simpl in Hn. destruct (foldl _ _ _) as [d [[s|] b]]; simpl in *.
      * destruct Hn as (Hs & Hd & Hlt & Hmin). split; [by apply elem_of_indices|].
        exists d. split_and!; try done.
        intros j d' Hj. apply Hmin. by apply elem_of_indices.
      * destruct Hn as (_ & Hnone). intros j d' Hj. apply Hnone.
        by apply elem_of_indices.
  - intros feature0 rest options a Hext Hn Hpt Hseed.
    unfold pickOrMergeSourceFeatures, cluster_stage. rewrite Hext, Hpt. simpl.
    destruct (length coords) as [|[|m]] eqn:Hlen; [lia..|]. simpl.
    by rewrite Hseed.
Qed.

End SeedSelection.

(** ** The expansion loop *)

Section Expansion.
Context `{Turf}.
Variable coords : list PolygonCoords.
Variable polys : list (option Geometry).
Variable centre : Position.
Variable cap far : float.

#[local] Abbreviation step := (expand_step coords polys centre cap far).
#[local] Abbreviation pass := (scan coords polys centre cap far).
#[local] Abbreviation enters := (joins coords polys centre cap far).
#[local] Abbreviation more := (grown coords polys).
#[local] Abbreviation n := (length coords).
#[local] Abbreviation in_range := (in_range coords).

Lemma expand_step_cases (st : Cluster) (i : nat) :
  (enters st i ∧ step st i = more st i) ∨ (¬ enters st i ∧ step st i = st).
Proof.
  unfold expand_step, joins.
  case_bool_decide as Hin; [right; split; [tauto|done]|].
  destruct (poly_at polys i) as [poly|] eqn:Ep;
    [|right; split; [intros (_ & p & ? & _); done|done]].
  destruct (too_far coords polys centre far i) as [[]|] eqn:Ef; simpl;
    try (right; split; [intros (_ & p & _ & ? & _); done|done]).
  destruct (over_area coords polys cap st i) eqn:Ea; simpl;
    try (right; split; [intros (_ & p & _ & _ & ? & _); done|done]).
  destruct (touchesCluster polys poly (members st)) eqn:Et; simpl.
  - left. split; [|done]. split; [done|]. by exists poly.
  - right. split; [|done]. intros (_ & p & ? & _ & _ & ?). congruence.
Qed.

(** An invariant of members and area that every admission keeps holds
    after any number of steps. *)
Lemma foldl_step_inv (P : list nat → float → Prop) (l : list nat) (st : Cluster) :
  (∀ st i, i ∈ l → enters st i → P (members st) (clusterArea st) →
     P (members st ++ [i]) (clusterArea st + candidateArea coords polys i)) →
  P (members st) (clusterArea st) →
  P (members (foldl step st l)) (clusterArea (foldl step st l)).
Proof.
  revert st. induction l as [|i l IH]; intros st Hstep HP; [done|].
  simpl. apply IH.
  - intros st' j Hj. apply Hstep. by right.
  - destruct (expand_step_cases st i) as [[Hj ->]|[_ ->]]; [|done].
    apply Hstep; [by left|done..].
Qed.

Lemma expand_loop_inv (P : list nat → float → Prop) (fuel : nat) (st : Cluster) :
  (∀ st i, i < n → enters st i → P (members st) (clusterArea st) →
     P (members st ++ [i]) (clusterArea st + candidateArea coords polys i)) →
  P (members st) (clusterArea st) →
  let r := expand_loop coords polys centre cap far fuel st in
  P (members r) (clusterArea r).
Proof.
  intros Hstep. revert st. induction fuel as [|fuel IH]; intros st HP; [done|].
  simpl.
  assert (P (members (pass st)) (clusterArea (pass st))) as HP'.
  { unfold scan. apply foldl_step_inv; [|done].
    intros st' i Hi. apply Hstep. unfold indices in Hi.
    apply elem_of_seq in Hi. lia. }
  destruct (changed (pass st)); [by apply IH|done].
Qed.

(** *** The loop ends, on a cluster that no fragment can join *)

Lemma step_in_range (st : Cluster) (i : nat) :
  i < n → in_range st → in_range (step st i).
Proof.
  intros Hi [Hnd Hlt].
  destruct (expand_step_cases st i) as [[[Hni _] ->]|[_ ->]]; [|done].
  split; simpl.
  - apply NoDup_app. split_and!; [done| |apply NoDup_singleton].
    intros j Hj ->%list_elem_of_singleton. done.
  - intros j [Hj| ->%list_elem_of_singleton]%elem_of_app; auto.
Qed.

Lemma step_length (st : Cluster) (i : nat) :
  length (members st) ≤ length (members (step st i)).
Proof.
  destruct (expand_step_cases st i) as [[_ ->]|[_ ->]]; [|done].
  simpl. rewrite length_app. lia.
Qed.

Lemma step_changed (st : Cluster) (i : nat) :
  changed st = true → changed (step st i) = true.
Proof.
  by destruct (expand_step_cases st i) as [[_ ->]|[_ ->]].
Qed.

Lemma foldl_step_length (l : list nat) (st : Cluster) :
  length (members st) ≤ length (members (foldl step st l)).
Proof.
  revert st. induction l as [|i l IH]; intros st; simpl; [done|].
  etrans; [apply (step_length st i)|apply IH].
Qed.

Lemma foldl_step_changed (l : list nat) (st : Cluster) :
  changed st = true → changed (foldl step st l) = true.
Proof.
  revert st. induction l as [|i l IH]; intros st; simpl; [done|].
  intros Hc. by apply IH, step_changed.
Qed.

Lemma foldl_step_in_range (l : list nat) (st : Cluster) :
  (∀ i, i ∈ l → i < n) → in_range st → in_range (foldl step st l).
Proof.
  revert st. induction l as [|i l IH]; intros st Hl Hst; simpl; [done|].
  apply IH; [intros j Hj; apply Hl; by right|].
  apply step_in_range; [apply Hl; by left|done].
Qed.

Lemma foldl_step_idle (l : list nat) (st : Cluster) :
  (∀ i, i ∈ l → ¬ enters st i) → foldl step st l = st.
Proof.
  induction l as [|i l IH]; intros Hl; simpl; [done|].
  destruct (expand_step_cases st i) as [[Hj _]|[_ ->]].
  - destruct (Hl i); [by left|done].
  - apply IH. intros j Hj. apply Hl. by right.
Qed.

Lemma foldl_step_outcome (l : list nat) (st : Cluster) :
  changed st = false →
  let r := foldl step st l in
  (changed r = false → r = st ∧ ∀ i, i ∈ l → ¬ enters st i)
  ∧ (changed r = true → length (members st) < length (members r)).
Proof.
  revert st. induction l as [|i l IH]; intros st Hc; simpl.
  - split; [|congruence]. intros _. split; [done|]. by intros i ?%elem_of_nil.
  - destruct (expand_step_cases st i) as [[Hj Hs]|[Hj Hs]]; rewrite Hs.
    + split.
      * intros Hr. by rewrite foldl_step_changed in Hr.
      * intros _. pose proof (foldl_step_length l (more st i)) as Hlen.
        simpl in Hlen. rewrite length_app in Hlen. simpl in Hlen. lia.
    + destruct (IH st Hc) as [IH1 IH2]. split; [|done].
      intros Hr. destruct (IH1 Hr) as [-> Hl]. split; [done|].
      intros j [->|Hjl]%elem_of_cons; auto.
Qed.

Lemma scan_outcome (st : Cluster) :
  in_range st →
  in_range (pass st)
  ∧ (changed (pass st) = false →
       pass st = reset st ∧ ∀ i, i < n → ¬ enters (pass st) i)
  ∧ (changed (pass st) = true →
       length (members st) < length (members (pass st))).
Proof.
  intros Hst. unfold scan. fold (reset st).
  assert (∀ i, i ∈ indices coords ↔ i < n) as Hidx.
  { intros i. unfold indices. rewrite elem_of_seq. lia. }
  split_and!.
  - apply foldl_step_in_range; [intros i; apply Hidx|done].
  - intros Hc.
    destruct (foldl_step_outcome (indices coords) (reset st) eq_refl) as [H1 _].
    destruct (H1 Hc) as [-> Hl]. split; [done|].
    intros i Hi. apply Hl, Hidx, Hi.
  - intros Hc.
    destruct (foldl_step_outcome (indices coords) (reset st) eq_refl) as [_ H2].
    apply (H2 Hc).
Qed.

Lemma in_range_length (st : Cluster) : in_range st → length (members st) ≤ n.
Proof.
  intros [Hnd Hlt].
  transitivity (length (seq 0 n)); [|by rewrite length_seq].
  apply submseteq_length, NoDup_submseteq; [done|].
  intros i Hi. apply elem_of_seq. specialize (Hlt i Hi). lia.
Qed.

Lemma expand_loop_fixpoint (fuel : nat) (st : Cluster) :
  in_range st → n - length (members st) < fuel →
  let r := expand_loop coords polys centre cap far fuel st in
  in_range r ∧ changed r = false ∧ (∀ i, i < n → ¬ enters r i) ∧ pass r = r.
Proof.
  revert st. induction fuel as [|fuel IH]; intros st Hst Hfuel; [lia|].
  simpl. destruct (scan_outcome st Hst) as (Hr & Hidle & Hgrow).
  destruct (changed (pass st)) eqn:Hc.
  - specialize (Hgrow eq_refl). pose proof (in_range_length _ Hr).
    apply IH; [done|lia].
  - destruct (Hidle eq_refl) as [Heq Hno]. split_and!; try done.
    rewrite Heq. unfold scan. simpl. fold (reset st).
    apply foldl_step_idle. intros i Hi. rewrite <- Heq. apply Hno.
    unfold indices in Hi. apply elem_of_seq in Hi. lia.
Qed.


(** The adjacency test looks at every member of the cluster. *)
Lemma touchesCluster_spec (poly : Geometry) (ms : list nat) :
  touchesCluster polys poly ms = true ↔
  ∃ j other, j ∈ ms ∧ poly_at polys j = Some other
    ∧ turf_booleanIntersects poly other = Ok true.
Proof.
  unfold touchesCluster. rewrite existsb_exists. split.
  - intros (j & Hj%list_elem_of_In & Ht).
    destruct (poly_at polys j) as [other|] eqn:Eo; [|done].
    destruct (turf_booleanIntersects poly other) as [[]|] eqn:Ei; try done.
    by exists j, other.
  - intros (j & other & Hj & Eo & Ei). exists j.
    split; [by apply list_elem_of_In|]. by rewrite Eo, Ei.
Qed.

(** Passing the distance guard: no centroid, or a distance that is not
    above the limit. *)
Lemma too_far_false (i : nat) :
  too_far coords polys centre far i = Ok false ↔
  centroids coords polys !! i ≫= id = None
  ∨ ∃ p d, centroids coords polys !! i ≫= id = Some p
      ∧ turf_distance centre p = Ok d ∧ Js.gt d far = false.
Proof.
  unfold too_far. destruct (centroids coords polys !! i ≫= id) as [p|].
  - destruct (turf_distance centre p) as [d|] eqn:Ed; simpl.
    + split.
      * intros [= Hd]. right. exists p, d. by split_and!.
      * intros [|(p' & d' & [= <-] & Ed' & Hd)]; [done|]. congruence.
    + split; [done|]. intros [|(p' & d' & [= <-] & ? & _)]; [done|congruence].
  - split; [by left|done].
Qed.

Lemma expand_fixpoint (seed : nat) :
  seed < n →
  let r := expand coords polys centre cap far seed in
  in_range r ∧ changed r = false ∧ (∀ i, i < n → ¬ enters r i) ∧ pass r = r.
Proof.
  intros Hs. apply expand_loop_fixpoint; simpl; [|lia].
  split; simpl.
  - apply NoDup_singleton.
  - by intros i ->%list_elem_of_singleton.
Qed.

Lemma expand_inv (P : list nat → float → Prop) (seed : nat) :
  (∀ st i, i < n → enters st i → P (members st) (clusterArea st) →
     P (members st ++ [i]) (clusterArea st + candidateArea coords polys i)) →
  P [seed] (Js.or_default (areas coords polys !! seed) 0) →
  let r := expand coords polys centre cap far seed in
  P (members r) (clusterArea r).
Proof. intros Hstep H0. by apply expand_loop_inv. Qed.

End Expansion.

(** ** The guards of the expansion, on the merge *)

Section Guards.
Context `{Turf}.

Lemma cluster_stage_clustered feature0 rest lngLat options c :
  cluster_stage feature0 rest lngLat options = Ok (inr c) →
  extractPolygonCoords (feature0 :: rest) = (allCoords c, turfPolys c)
  ∧ seedIndex c < length (allCoords c)
  ∧ maxDist c = Js.or_default (maxDistanceKm options) MAX_NEIGHBOR_DISTANCE_KM
  ∧ maxClusterArea c
    = seedArea c * Js.or_default (areaMultiplier options) AREA_MULTIPLIER
  ∧ cluster c = expand (allCoords c) (turfPolys c) (seedCentroid c)
                       (maxClusterArea c) (maxDist c) (seedIndex c).
Proof.
  unfold cluster_stage.
  destruct (extractPolygonCoords _) as [coords polys].
  intros E.
  repeat match goal with
         | E : _ ≫= _ = Ok _ |- _ => apply Exc_bind_Ok in E as (? & ? & E)
         | E : (if ?b then _ else _) = Ok _ |- _ => destruct b eqn:?
         | E : match ?x with Some _ => _ | None => _ end = Ok (inr _) |- _ =>
             destruct x eqn:?
         end; simplify_eq.
  all: simpl; split_and!; try done.
  all: match goal with
       | E : select_seed _ _ _ _ = Ok ?st, E1 : ?st.1 = Some _ |- _ =>
           destruct st as [s a]; simpl in E1; subst; by eapply select_seed_lt
       end.
Qed.


(** C2, as the code has it.  A candidate whose centroid is farther from the
    seed centroid than the limit never joins the cluster, whatever it
    touches, and neither does one whose distance cannot be computed; a
    candidate without a centroid passes the distance guard unchecked. *)
Theorem distance_guard_sound feature0 rest lngLat options c :
  cluster_stage feature0 rest lngLat options = Ok (inr c) →
  ∀ i, i ≠ seedIndex c →
    let centroid_i := centroids (allCoords c) (turfPolys c) !! i ≫= id in
    (∀ p d, centroid_i = Some p →
       turf_distance (seedCentroid c) p = Ok d →
       Js.gt d (maxDist c) = true →
       i ∉ members (cluster c))
    ∧ (∀ p, centroid_i = Some p →
         turf_distance (seedCentroid c) p = Throw →
         i ∉ members (cluster c))
    ∧ (centroid_i = None →
         too_far (allCoords c) (turfPolys c) (seedCentroid c) (maxDist c) i
         = Ok false).
Proof.
  intros (_ & Hseed & _ & _ & Hcl)%cluster_stage_clustered i Hi centroid_i.
  assert (i ∈ members (cluster c) →
          too_far (allCoords c) (turfPolys c) (seedCentroid c) (maxDist c) i
          = Ok false) as Hin.
  { rewrite Hcl. intros Hmem.
    pose proof (expand_inv (allCoords c) (turfPolys c) (seedCentroid c)
                  (maxClusterArea c) (maxDist c)
                  (λ ms _, ∀ j, j ∈ ms → j = seedIndex c
                     ∨ too_far (allCoords c) (turfPolys c) (seedCentroid c)
                               (maxDist c) j = Ok false)
                  (seedIndex c)) as Hinv.
    simpl in Hinv. destruct (Hinv) with (j := i) as [|Hfar]; try done.
    - intros st j _ (_ & poly & _ & Hfar & _) Hst k
        [Hk| ->%list_elem_of_singleton]%elem_of_app; auto.
    - intros j ->%list_elem_of_singleton. by left. }
  split_and!.
  - intros p d Hp Hd Hgt Hmem. apply Hin, too_far_false in Hmem.
    fold centroid_i in Hmem. destruct Hmem as [|(p' & d' & ? & ? & ?)]; congruence.
  - intros p Hp Hd Hmem. apply Hin, too_far_false in Hmem.
    fold centroid_i in Hmem. destruct Hmem as [|(p' & d' & ? & ? & ?)]; congruence.
  - intros Hnone. apply too_far_false. by left.
Qed.


(** C8.  The expansion ends on a fixed point: one more pass over all
    fragments changes nothing, because no fragment outside the cluster
    passes the guards.  The adjacency test asks for an intersection with any
    member of the cluster as it is at that moment; so in the chain [A], [C],
    [B] the far end [C], which the first pass rejects for not touching the
    seed [A], joins in the second pass, once [B] is a member. *)
Theorem expansion_fixpoint feature0 rest lngLat options c :
  cluster_stage feature0 rest lngLat options = Ok (inr c) →
  let coords := allCoords c in
  let polys := turfPolys c in
  let pass := scan coords polys (seedCentroid c) (maxClusterArea c) (maxDist c) in
  let enters := joins coords polys (seedCentroid c) (maxClusterArea c) (maxDist c) in
  changed (cluster c) = false
  ∧ pass (cluster c) = cluster c
  ∧ (∀ i, i < length coords → ¬ enters (cluster c) i)
  ∧ (∀ st i,
       (enters st i ∧
        expand_step coords polys (seedCentroid c) (maxClusterArea c) (maxDist c)
                    st i = grown coords polys st i)
       ∨ (¬ enters st i ∧
          expand_step coords polys (seedCentroid c) (maxClusterArea c) (maxDist c)
                      st i = st))
  ∧ (∀ poly ms,
       touchesCluster polys poly ms = true ↔
       ∃ j other, j ∈ ms ∧ poly_at polys j = Some other
         ∧ turf_booleanIntersects poly other = Ok true)
  ∧ (@cluster_stage Scenario.flat (Planar.feature "w1" (Polygon Scenario.A))
                     (tail Scenario.chain) Scenario.in_A no_options
      = Ok (inr (Scenario.chain_clustered
                   (Scenario.chain_pass
                      (Scenario.chain_pass
                         (Scenario.chain_pass Scenario.chain_seed)))))
     ∧ @touchesCluster Scenario.flat Scenario.chain_fragments.2
                       (Polygon Scenario.C) [0%nat] = false
     ∧ members (Scenario.chain_pass Scenario.chain_seed) = [0; 2]%nat
     ∧ @touchesCluster Scenario.flat Scenario.chain_fragments.2
                       (Polygon Scenario.C) [0; 2]%nat = true
     ∧ members (Scenario.chain_pass (Scenario.chain_pass Scenario.chain_seed))
       = [0; 2; 1]%nat).
Proof.
  intros (_ & Hseed & _ & _ & Hcl)%cluster_stage_clustered coords polys pass enters.
  pose proof (expand_fixpoint (allCoords c) (turfPolys c) (seedCentroid c)
                (maxClusterArea c) (maxDist c) (seedIndex c) Hseed) as Hfix.
  simpl in Hfix. rewrite <- Hcl in Hfix. destruct Hfix as (_ & Hch & Hno & Hfix).
  subst coords polys pass enters.
  split_and!; [done|done|done|apply expand_step_cases
               |apply touchesCluster_spec|..]; by vm_compute.
Qed.

End Guards.

(** ** The guards at work on concrete fragments *)

(** Evaluate a closed goal. *)
Ltac run := vm_compute; first [reflexivity | discriminate | lia].

Module GuardsAtWork.
Import Planar Scenario.

(** With a distance limit of half a side, the neighbour [B] of the seed [A]
    stays out, although it touches [A]. *)
Lemma distance_guard_sound_witness :
  ∃ c, @cluster_stage flat (feature "w1" (Polygon A)) (tail pair) in_A tight
       = Ok (inr c)
    ∧ @touchesCluster flat (turfPolys c) (Polygon B) [seedIndex c] = true
    ∧ 1%nat ∉ members (cluster c).
Proof.
  eexists. split; [run|].
  match goal with |- context [cluster ?c] => set (cl := c) end.
  assert (@cluster_stage flat (feature "w1" (Polygon A)) (tail pair) in_A tight
          = Ok (inr cl)) as Hstage by run.
  split; [run|].
  refine (proj1 (@distance_guard_sound flat _ _ _ _ cl Hstage 1%nat _)
                (s + s / 2, s / 2) s _ _ _); run.
Defined.

(** C2 fails as stated: [B], whose centroid cannot be computed, joins the
    cluster of [A]. *)
Lemma failed_centroid_joins :
  ∃ c, @cluster_stage lame (feature "w1" (Polygon A)) (tail pair) in_A no_options
       = Ok (inr c)
    ∧ poly_at (turfPolys c) 1 = Some (Polygon B)
    ∧ @turf_centroid lame (Polygon B) = Throw
    ∧ 1%nat ≠ seedIndex c
    ∧ members (cluster c) = [0; 1]%nat.
Proof. eexists. split; [run|]. split_and!; run. Qed.



Lemma expansion_fixpoint_witness :
  ∃ c, @cluster_stage flat (feature "w1" (Polygon A)) (tail chain) in_A no_options
       = Ok (inr c)
    ∧ @scan flat (allCoords c) (turfPolys c) (seedCentroid c) (maxClusterArea c)
            (maxDist c) (cluster c) = cluster c.
Proof.
  eexists. split; [run|].
  match goal with |- context [cluster ?c] => set (cl := c) end.
  assert (@cluster_stage flat (feature "w1" (Polygon A)) (tail chain) in_A
            no_options = Ok (inr cl)) as Hstage by run.
  exact (proj1 (proj2 (@expansion_fixpoint flat _ _ _ _ cl Hstage))).
Defined.

End GuardsAtWork.

(** ** The merge on concrete features *)

Module MergeAtWork.
Import Planar Scenario.

(** C1 fails on the code.  When the union of the cluster comes back empty,
    the fallback wraps the cluster in a MultiPolygon; and when
    [turf.polygon] refuses a ring, [extractPolygonCoords] pushes it twice,
    the cluster [{A, B}] is read as the rings at its indices, the refused
    ring and [A], and the union that cannot start falls back to a
    MultiPolygon of those. *)
Theorem merge_can_return_MultiPolygon :
  (length (@extractPolygonCoords hollow pair).1 = 2%nat
   ∧ @pickOrMergeSourceFeatures hollow pair in_A no_options
     = Ok (Some (with_geometry (feature "w1" (Polygon A))
                   (MultiPolygon [A; B]))))
  ∧ (@extractPolygonCoords flat shifted
     = ([open_ring; open_ring; A; B],
        [None; Some (Polygon A); Some (Polygon B)])
     ∧ @pickOrMergeSourceFeatures flat shifted in_A no_options
       = Ok (Some (with_geometry (feature "w1" (Polygon open_ring))
                     (MultiPolygon [open_ring; A])))).
Proof. split_and!; reflexivity. Qed.

(** Of two fragments that contain the reference point, the smaller is the
    seed.  The open ring of [A] has no Turf polygon, and is the seed by ray
    casting on the raw ring.  Far from [A] and [B], the seed is [B], whose
    centroid is nearer.  Far from a lone open ring, there is no seed and
    the feature comes back as it is. *)
Lemma seed_selection_precedence_witness :
  (let frags := @extractPolygonCoords flat nested in
   ∃ seed a, @select_seed flat frags.1 frags.2 in_A in_A = Ok (Some seed, a)
     ∧ (seed < 2)%nat
     ∧ @contains_with_area flat frags.2 in_A seed a
     ∧ ∀ j a_j, (j < 2)%nat → @contains_with_area flat frags.2 in_A j a_j →
         (a_j <? a) = false)
  ∧ (@extractPolygonCoords flat unclosed
     = ([open_A; open_A; B], [None; Some (Polygon B)])
     ∧ @select_seed flat [open_A; open_A; B] [None; Some (Polygon B)] in_A in_A
       = Ok (Some 0%nat, 0))
  ∧ (@select_seed flat [A; B] [Some (Polygon A); Some (Polygon B)]
       far_off far_off = Ok (Some 1%nat, s * s)
     ∧ ∃ st, @select_seed flat [A; B] [Some (Polygon A); Some (Polygon B)]
               far_off far_off = Ok st
         ∧ match st.1 with
           | Some i =>
               (i < 2)%nat
               ∧ ∃ d, @centroid_at_distance flat
                        [Some (Polygon A); Some (Polygon B)] far_off i d
                   ∧ (d <? infinity) = true
                   ∧ ∀ j d', (j < 2)%nat →
                       @centroid_at_distance flat
                         [Some (Polygon A); Some (Polygon B)] far_off j d' →
                       (d' <? d) = false
           | None =>
               ∀ j d, (j < 2)%nat →
                 @centroid_at_distance flat
                   [Some (Polygon A); Some (Polygon B)] far_off j d →
                 (d <? infinity) = false
           end)
  ∧ @pickOrMergeSourceFeatures flat [lone_open] far_off no_options
    = Ok (Some lone_open).
Proof.
  split_and!.
  - refine (proj1 (@seed_selection_precedence flat
                     (@extractPolygonCoords flat nested).1
                     (@extractPolygonCoords flat nested).2 in_A in_A)
                  0%nat (4 * (s * s)) _ _ _).
    + run.
    + exists (Polygon (square 0 0 (2 * s))). split_and!; run.
    + run.
  - reflexivity.
  - refine (proj1 (proj2 (@seed_selection_precedence flat
                            [open_A; open_A; B] [None; Some (Polygon B)]
                            in_A in_A))
                  _ 0%nat [(0, 0); (s, 0); (s, s); (0, s)] [] _ _ _ 0 _).
    + intros i a Hi (p & Hp & Hin & _).
      destruct i as [|[|[|i]]]; [by vm_compute in Hp| |by vm_compute in Hp
                                |simpl in Hi; lia].
      injection Hp as <-. vm_compute in Hin. discriminate.
    + reflexivity.
    + reflexivity.
    + intros j ring' holes' Hj. lia.
    + reflexivity.
  - reflexivity.
  - refine (proj1 (proj2 (proj2 (@seed_selection_precedence flat
                            [A; B] [Some (Polygon A); Some (Polygon B)]
                            far_off far_off))) _ _).
    + intros i a Hi (p & Hp & Hin & _).
      destruct i as [|[|i]]; [..|simpl in Hi; lia];
        injection Hp as <-; vm_compute in Hin; discriminate.
    + intros [|[|i]] ring holes Hc; [..|done]; injection Hc as <- <-;
        reflexivity.
  - refine (proj2 (proj2 (proj2 (@seed_selection_precedence flat
                            [open_A; open_A] [None] far_off far_off)))
                  lone_open [] no_options infinity _ _ _ _).
    + reflexivity.
    + simpl. lia.
    + reflexivity.
    + reflexivity.
Defined.

(** A single fragment comes back as a Polygon, and with no fragment the
    first feature comes back untouched.  The lone open ring is two
    fragments: around the centre of [A] the result is the Polygon of the
    ring, far from it the feature comes back as it is, a MultiPolygon. *)
Lemma flatten_first_witness :
  (∃ r, @pickOrMergeSourceFeatures flat [feature "w1" (MultiPolygon [A])]
          in_A no_options = Ok (Some r)
     ∧ r = with_geometry (feature "w1" (MultiPolygon [A])) (Polygon A)
     ∧ geometry r = Some (Polygon A)
     ∧ ∀ k : string, k ≠ "geometry"%string →
         r !! k = feature "w1" (MultiPolygon [A]) !! k)
  ∧ @pickOrMergeSourceFeatures flat [a_point] in_A no_options
    = Ok (Some a_point)
  ∧ (∃ r, @pickOrMergeSourceFeatures flat [lone_open] in_A no_options
          = Ok (Some r)
       ∧ geometry r = Some (Polygon open_A)
       ∧ ∀ k : string, k ≠ "geometry"%string → r !! k = lone_open !! k)
  ∧ @pickOrMergeSourceFeatures flat [lone_open] far_off no_options
    = Ok (Some lone_open)
  ∧ geometry lone_open = Some (MultiPolygon [open_A]).
Proof.
  split_and!.
  - refine (proj1 (proj2 (@flatten_first flat (feature "w1" (MultiPolygon [A]))
                            [] in_A no_options)) A _ _); reflexivity.
  - refine (proj1 (@flatten_first flat a_point [] in_A no_options) _).
    reflexivity.
  - refine (proj1 (proj2 (proj2 (proj2 (proj2
              (@flatten_first flat lone_open [] in_A no_options))))
              open_A _ _) _); [reflexivity..|].
    exists [(0, 0); (s, 0); (s, s); (0, s)], []. split; reflexivity.
  - refine (proj2 (proj2 (proj2 (proj2 (proj2
              (@flatten_first flat lone_open [] far_off no_options))))
              open_A _ _) _); [reflexivity..|].
    intros (ring & holes & [= <- <-] & Hin). vm_compute in Hin. discriminate.
  - reflexivity.
Defined.

(** The seed [A] comes from the second feature; the id of the result is
    that of the first. *)
Lemma merge_keeps_first_feature_fields_witness :
  @pickOrMergeSourceFeatures flat mixed in_A no_options = Ok (Some mixed_merged)
  ∧ mixed_merged !! "id"%string = Some (FJson (JStr "w2")).
Proof.
  assert (@pickOrMergeSourceFeatures flat mixed in_A no_options
          = Ok (Some mixed_merged)) as Hres by reflexivity.
  split; [exact Hres|].
  destruct (@merge_keeps_first_feature_fields flat mixed in_A no_options
              mixed_merged Hres) as (feature0 & Hfirst & Hkeys).
  rewrite Hkeys by discriminate.
  injection Hfirst as <-. reflexivity.
Defined.

(** The centre of [A] is inside [A]; a point 5 m east of [A] is inside [A]
    buffered by 10 m. *)
Lemma validation_direct_or_buffered_witness :
  @isPointInsideResult flat in_A (Some (Polygon A)) = true
  ∧ @isPointInsideResult flat (s + 0.005, s / 2) (Some (Polygon A)) = true.
Proof.
  split.
  - apply (proj1 (@validation_direct_or_buffered flat in_A (Polygon A))).
    left. run.
  - apply (proj1 (@validation_direct_or_buffered flat (s + 0.005, s / 2)
                    (Polygon A))).
    right. split; [run|]. eexists. split; run.
Defined.

End MergeAtWork.

(** ** The expansion loop of the controller *)

Section PassLoop.
Context `{Turf} `{MapEngine}.
Variable center : Position.
Variable src : Json * Json * Filter.

Lemma requery_geometry w options cur :
  cur.2 ≠ None → (requery center w src options cur).2 ≠ None.
Proof.
  unfold requery. destruct src as [[sourceId sourceLayer] filter].
  intros Hcur.
  destruct (querySourceFeatures w sourceId sourceLayer filter)
    as [[[|f fs]|]|]; try done.
  change ((try_catch
             (merged ← pickOrMergeSourceFeatures (f :: fs) center options;
              match merged ≫= geometry with
              | Some g => Ok (merged, Some g)
              | None => Ok cur
              end) cur).2 ≠ None).
  generalize (pickOrMergeSourceFeatures (f :: fs) center options).
  intros [merged|]; simpl; [|done].
  destruct (merged ≫= geometry); simpl; done.
Qed.

Lemma runPass_body_cases (st : PassState) :
  match runPass_body center src st with
  | Throw =>
      currentGeom st ≠ None ∧ passNumber st < MAX_PASSES
      ∧ ∀ d, ¬ measures st d
  | Ok (Finished NoGeometry r w) =>
      r = on_result st ∧ w = world st ∧ currentGeom st = None
  | Ok (Finished PassLimit r w) =>
      r = on_result st ∧ w = world st
      ∧ currentGeom st ≠ None ∧ MAX_PASSES ≤ passNumber st
  | Ok (Finished Converged r w) =>
      r = on_result st ∧ w = world st ∧ passNumber st < MAX_PASSES
      ∧ ∃ d, measures st d ∧ converged st d = true
  | Ok (NextPass st') =>
      passNumber st < MAX_PASSES
      ∧ passNumber st' = S (passNumber st)
      ∧ currentGeom st' ≠ None
      ∧ ∃ d, measures st d ∧ converged st d = false ∧ prevDiagonal st' = d
  end.
Proof.
  unfold runPass_body, measures, converged.
  destruct (currentGeom st) as [g|] eqn:Eg; [|done].
  destruct (MAX_PASSES <? S (passNumber st))%nat eqn:Elim.
  { apply Nat.ltb_lt in Elim. split_and!; try done. lia. }
  apply Nat.ltb_ge in Elim.
  destruct (turf_bbox g) as [[[[minX minY] maxX] maxY]|] eqn:Eb; simpl;
    [|split_and!; [done|lia|]; intros d (? & ? & ? & ? & ? & ? & ? & ? & ? & _);
      congruence].
  destruct (turf_point (minX, minY)) as [p1|] eqn:E1; simpl;
    [|split_and!; [done|lia|];
      intros d (? & ? & ? & ? & ? & ? & ? & ? & ? & ? & _); congruence].
  destruct (turf_point (maxX, maxY)) as [p2|] eqn:E2; simpl;
    [|split_and!; [done|lia|];
      intros d (? & ? & ? & ? & ? & ? & ? & ? & ? & ? & ? & _); congruence].
  destruct (turf_distance p1 p2) as [d|] eqn:Ed; simpl;
    [|split_and!; [done|lia|];
      intros d (? & ? & ? & ? & ? & ? & ? & ? & ? & ? & ? & ?); congruence].
  assert (measures st d) as Hm.
  { exists g, minX, minY, maxX, maxY, p1, p2. by rewrite Eg. }
  unfold measures in Hm. rewrite Eg in Hm.
  destruct ((1 <? S (passNumber st))%nat
            && (growth (prevDiagonal st) d <? BBOX_GROWTH)) eqn:Ec.
  - split_and!; try done. by exists d.
  - destruct (requery _ _ _ _ _) as [merged geom] eqn:Er. simpl.
    split_and!; try done; [|by exists d].
    change geom with (merged, geom).2. rewrite <- Er.
    by apply requery_geometry.
Qed.

Lemma runPass_calls_back (fuel : nat) (st : PassState) :
  MAX_PASSES - passNumber st < fuel → runPass center fuel src st ≠ Ok None.
Proof.
  revert st. induction fuel as [|fuel IH]; intros st Hfuel; [lia|].
  simpl. pose proof (runPass_body_cases st) as Hc.
  destruct (runPass_body center src st) as [[why r w|st']|]; simpl; try done.
  destruct Hc as (Hlt & Hn & _). apply IH. lia.
Qed.

Lemma passes_bounded (fuel : nat) (st : PassState) :
  passes center fuel src st ≤ MAX_PASSES - passNumber st.
Proof.
  revert st. induction fuel as [|fuel IH]; intros st; simpl; [lia|].
  pose proof (runPass_body_cases st) as Hc.
  destruct (runPass_body center src st) as [[why r w|st']|]; try lia.
  destruct Hc as (Hlt & Hn & _). specialize (IH st'). lia.
Qed.

Lemma measures_fun (st : PassState) (d d' : float) :
  measures st d → measures st d' → d = d'.
Proof.
  intros (g & a1 & a2 & a3 & a4 & p1 & p2 & Eg & Eb & E1 & E2 & Ed)
         (g' & b1 & b2 & b3 & b4 & q1 & q2 & Eg' & Eb' & E1' & E2' & Ed').
  simplify_eq. congruence.
Qed.

(** C5.  A call of [runPass] with [passNumber] beyond [MAX_PASSES] calls
    back at once, so from any state at most [MAX_PASSES - passNumber] passes
    are made before the callback, however the diagonal grows; and a call
    ends the loop as converged exactly when it is not the first, the pass
    limit is not reached and the diagonal has grown by less than
    [BBOX_GROWTH] since the previous call, the growth from a previous
    diagonal that is not positive counting as 1. *)
Theorem expansion_loop_bounded (st : PassState) :
  (∀ fuel, MAX_PASSES - passNumber st < fuel →
     runPass center fuel src st ≠ Ok None)
  ∧ (∀ fuel, passes center fuel src st ≤ MAX_PASSES - passNumber st)
  ∧ (∀ r w, runPass_body center src st = Ok (Finished Converged r w) ↔
       r = on_result st ∧ w = world st
       ∧ passNumber st < MAX_PASSES ∧ 1 ≤ passNumber st
       ∧ ∃ d, measures st d
           ∧ (growth (prevDiagonal st) d <? BBOX_GROWTH) = true)
  ∧ (∀ d, measures st d → passNumber st < MAX_PASSES →
       ¬ (1 ≤ passNumber st
          ∧ (growth (prevDiagonal st) d <? BBOX_GROWTH) = true) →
       ∃ st', runPass_body center src st = Ok (NextPass st')
         ∧ passNumber st' = S (passNumber st) ∧ prevDiagonal st' = d)
  ∧ (∀ prev d, growth prev d
       = if Js.gt prev 0 then (d - prev) / prev else 1).
Proof.
  assert (∀ d, converged st d = true ↔
          1 ≤ passNumber st
          ∧ (growth (prevDiagonal st) d <? BBOX_GROWTH) = true) as Hconv.
  { intros d. unfold converged. rewrite andb_true_iff, Nat.ltb_lt.
    split; intros [? ?]; split; try done; lia. }
  pose proof (runPass_body_cases st) as Hc.
  split_and!.
  - intros fuel. apply runPass_calls_back.
  - intros fuel. apply passes_bounded.
  - intros r w. split.
    + intros E. rewrite E in Hc. destruct Hc as (-> & -> & Hlt & d & Hm & Hd).
      apply Hconv in Hd as [Hone Hd]. split_and!; try done. by exists d.
    + intros (-> & -> & Hlt & Hone & d & Hm & Hd).
      destruct (runPass_body center src st) as [[[] r w|st']|].
      * destruct Hc as (_ & _ & Hg).
        destruct Hm as (g & ? & ? & ? & ? & ? & ? & ? & _). congruence.
      * destruct Hc as (_ & _ & _ & ?). lia.
      * by destruct Hc as (-> & -> & _).
      * destruct Hc as (_ & _ & _ & d' & Hm' & Hd' & _).
        rewrite (measures_fun _ _ _ Hm' Hm) in Hd'.
        assert (converged st d = true) by (apply Hconv; done). congruence.
      * destruct Hc as (_ & _ & Hno). by destruct (Hno d).
  - intros d Hm Hlt Hnot.
    destruct (runPass_body center src st) as [[[] r w|st']|].
    + destruct Hc as (_ & _ & Hg).
      destruct Hm as (g & ? & ? & ? & ? & ? & ? & ? & _). congruence.
    + destruct Hc as (_ & _ & _ & ?). lia.
    + destruct Hc as (_ & _ & _ & d' & Hm' & Hd').
      rewrite (measures_fun _ _ _ Hm' Hm) in Hd'. by apply Hconv in Hd'.
    + destruct Hc as (_ & Hn & _ & d' & Hm' & _ & Hp).
      exists st'. rewrite (measures_fun _ _ _ Hm Hm'). done.
    + destruct Hc as (_ & _ & Hno). by destruct (Hno d).
  - done.
Qed.

End PassLoop.

(** ** The zoom cascade *)

Section ZoomCascade.
Context `{Turf} `{MapEngine}.
Variable center : Position.
Variable clickPt : Position.

#[local] Abbreviation run := (tryNextZoom center clickPt).
#[local] Abbreviation body := (tryNextZoom_body center clickPt).
#[local] Opaque ZOOM_CASCADE.

Lemma discoverAtZoom_calls_back (zoom : float) (w : World) :
  discoverAtZoom center zoom w ≠ Ok None.
Proof.
  unfold discoverAtZoom.
  destruct (project _ _) as [x y].
  destruct (List.find _ _) as [building|]; [|done].
  destruct (working_filter _ _) as [src|]; [|done].
  destruct (requery _ _ _ _ _) as [merged geom].
  pose proof (runPass_calls_back center src (S MAX_PASSES)
                {| currentMerged := merged; currentGeom := geom;
                   prevDiagonal := 0; passNumber := 0;
                   world := flyTo w center zoom |}) as Hback.
  destruct (runPass _ _ _ _) as [[[[why r] w']|]|]; simpl; try done.
  destruct Hback; [unfold MAX_PASSES; simpl; lia|done].
Qed.

Lemma last_candidate_snoc (l : list Visit) (v : Visit) :
  last_candidate (l ++ [v])
  = match candidate v with Some r => Some r | None => last_candidate l end.
Proof.
  unfold last_candidate. rewrite omap_app. simpl.
  destruct (candidate v); simpl; [by rewrite last_snoc|by rewrite app_nil_r].
Qed.

Lemma body_cases (st : Cascade) :
  escalating clickPt st →
  match body st with
  | Throw | Ok None => True
  | Ok (Some (Done final)) => settled clickPt final
  | Ok (Some (NextZoom st')) =>
      escalating clickPt st' ∧ zoomIndex st' = S (zoomIndex st)
      ∧ zoomIndex st < length ZOOM_CASCADE
  end.
Proof.
  intros (Hidx & Hzooms & Hlog & Hbest & Hui). unfold tryNextZoom_body.
  destruct (ZOOM_CASCADE !! zoomIndex st) as [zoom|] eqn:Ez.
  - pose proof (lookup_lt_Some _ _ _ Ez) as Hlt.
    destruct (discoverAtZoom center zoom (map st)) as [[[result w]|]|];
      simpl; try done.
    assert (∀ v, visit_zoom v = zoom →
              visit_zoom <$> log st ++ [v]
              = take (S (zoomIndex st)) ZOOM_CASCADE) as Hz'.
    { intros v <-. rewrite fmap_app, Hzooms. by erewrite take_S_r. }
    destruct (candidate_of result) as [r|] eqn:Er.
    + destruct (isPointInsideResult clickPt (res_geometry r)) eqn:Ev.
      * unfold settled. simpl. rewrite length_app. simpl.
        replace (length (log st) + 1)%nat with (S (zoomIndex st)) by lia.
        split_and!.
        -- by apply Hz'.
        -- intros v [Hv| ->%list_elem_of_singleton]%elem_of_app;
             [by apply Hlog|]. unfold flagged. simpl. by rewrite Ev.
        -- intros k v Hk Hv.
           destruct (decide (k < length (log st))) as [Hin|Hout].
           ++ rewrite lookup_app_l in Hk by done.
              apply list_elem_of_lookup_2, Hlog in Hk as [Hk _]. congruence.
           ++ rewrite lookup_app_r in Hk by lia.
              apply list_lookup_singleton_Some in Hk as [Hk <-].
              split; [lia|]. exists r. by rewrite Hui.
        -- by rewrite last_candidate_snoc.
        -- intros Hnone.
           assert (true = false) as Habs; [|done].
           apply (Hnone {| visit_zoom := zoom; candidate := Some r;
                           validated := true |}).
           apply elem_of_app. right. by apply list_elem_of_singleton.
      * unfold escalating. simpl. split_and!; try done.
        -- rewrite length_app. simpl. lia.
        -- by apply Hz'.
        -- intros v [Hv| ->%list_elem_of_singleton]%elem_of_app;
             [by apply Hlog|]. unfold flagged. simpl. by rewrite Ev.
        -- by rewrite last_candidate_snoc.
    + unfold escalating. simpl. split_and!; try done.
      * rewrite length_app. simpl. lia.
      * by apply Hz'.
      * intros v [Hv| ->%list_elem_of_singleton]%elem_of_app;
          [by apply Hlog|]. done.
      * by rewrite last_candidate_snoc.
  - apply lookup_ge_None in Ez. unfold settled, exhausted. simpl.
    assert (take (zoomIndex st) ZOOM_CASCADE = ZOOM_CASCADE) as Hall
      by by apply take_ge.
    split_and!.
    + by rewrite <- Hidx.
    + intros v Hv. by apply Hlog.
    + intros k v Hk Hv.
      apply list_elem_of_lookup_2, Hlog in Hk as [Hk _]. congruence.
    + done.
    + intros _. rewrite Hzooms, Hall. split; [done|].
      rewrite <- Hbest, Hui. done.
Qed.

Lemma run_settled (fuel : nat) (st final : Cascade) :
  escalating clickPt st → run fuel st = Ok (Some final) → settled clickPt final.
Proof.
  revert st. induction fuel as [|fuel IH]; intros st Hst; [done|]. simpl.
  pose proof (body_cases st Hst) as Hb.
  destruct (body st) as [[[final'|st']|]|]; simpl; try done.
  - by intros [= <-].
  - destruct Hb as (Hst' & _). by apply IH.
Qed.

Lemma run_ends (fuel : nat) (st : Cascade) :
  length ZOOM_CASCADE - zoomIndex st < fuel → run fuel st ≠ Ok None.
Proof.
  revert st. induction fuel as [|fuel IH]; intros st Hfuel; [lia|]. simpl.
  unfold tryNextZoom_body.
  destruct (ZOOM_CASCADE !! zoomIndex st) as [zoom|] eqn:Ez; [|done].
  apply lookup_lt_Some in Ez.
  pose proof (discoverAtZoom_calls_back zoom (map st)) as Hback.
  destruct (discoverAtZoom center zoom (map st)) as [[[result w]|]|];
    simpl; try done.
  destruct (candidate_of result) as [r|]; simpl.
  - destruct (isPointInsideResult clickPt (res_geometry r)); [done|].
    apply IH. simpl. lia.
  - apply IH. simpl. lia.
Qed.

Lemma omap_nil_all {A B} (f : A → option B) (l : list A) :
  omap f l = [] ↔ ∀ x, x ∈ l → f x = None.
Proof.
  induction l as [|a l IH]; simpl.
  - split; [by intros _ x ?%elem_of_nil|done].
  - destruct (f a) eqn:Ea; split; try done.
    + intros Hall. specialize (Hall a (list_elem_of_here _ _)). congruence.
    + intros Hn x [->|Hx]%elem_of_cons; [done|]. by apply IH.
    + intros Hall. apply IH. intros x Hx. apply Hall. by right.
Qed.

Lemma show_displays (r : Result) : displays (show r loading) r.
Proof.
  unfold displays, show, buildGeoJSONFromFeature, showHighlight. simpl.
  split; [done|]. split; [done|].
  destruct (res_geometry r) as [[c|c|t|]|]; try done.
  - split; [done|]. eexists. split; [done|]. unfold geometry.
    rewrite lookup_insert_ne by done. rewrite lookup_insert_ne by done.
    rewrite lookup_insert_eq. split; [done|].
    rewrite lookup_insert_eq. split; [done|].
    rewrite lookup_insert_ne by done. by rewrite lookup_insert_eq.
  - split; [done|]. eexists. split; [done|]. unfold geometry.
    rewrite lookup_insert_ne by done. rewrite lookup_insert_ne by done.
    rewrite lookup_insert_eq. split; [done|].
    rewrite lookup_insert_eq. split; [done|].
    rewrite lookup_insert_ne by done. by rewrite lookup_insert_eq.
  - split; [done|]. eexists. split; [done|]. unfold geometry.
    rewrite lookup_insert_ne by done. rewrite lookup_insert_ne by done.
    by rewrite lookup_insert_eq.
Qed.

(** C6.  A run of the cascade that ends has visited the zoom levels in
    order.  A visit is validated when the validation accepts its candidate;
    a validated visit is the last one, and its candidate is what is
    returned: the UI displays it, outline and GeoJSON, and later levels are
    not tried.  The best result is the last candidate met.  When no visit is
    validated, every level was tried, and the last candidate is displayed
    if there is one, the error otherwise, with no GeoJSON and no outline;
    the error is set in no other case.  And every run ends or throws. *)
Theorem cascade_outcome (w : World) (final : Cascade) :
  handleGetBuildingAtLocation center clickPt w = Ok (Some final) →
  let visits := log final in
  visit_zoom <$> visits = take (length visits) ZOOM_CASCADE
  ∧ (∀ v, v ∈ visits →
       validated v = match candidate v with
                     | Some r => isPointInsideResult clickPt (res_geometry r)
                     | None => false
                     end)
  ∧ (∀ k v, visits !! k = Some v → validated v = true →
       S k = length visits
       ∧ ∃ r, candidate v = Some r ∧ ui final = show r loading
           ∧ displays (ui final) r)
  ∧ bestResult final = last_candidate visits
  ∧ ((∀ v, v ∈ visits → validated v = false) →
       visit_zoom <$> visits = ZOOM_CASCADE
       ∧ ui final = match last_candidate visits with
                    | Some best => show best loading
                    | None => show_error loading
                    end
       ∧ match last_candidate visits with
         | Some best => displays (ui final) best
         | None => reports_no_building (ui final)
         end)
  ∧ (error (ui final) = Some NoBuildingFound ↔
       visit_zoom <$> visits = ZOOM_CASCADE
       ∧ ∀ v, v ∈ visits → candidate v = None)
  ∧ (error (ui final) = None ∨ error (ui final) = Some NoBuildingFound)
  ∧ isLoadingBuilding (ui final) = false
  ∧ (∀ w', handleGetBuildingAtLocation center clickPt w' ≠ Ok None).
Proof.
  intros Hrun visits.
  assert (settled clickPt final) as (Hzooms & Hflag & Hvalid & Hbest & Hnone).
  { eapply run_settled; [|exact Hrun].
    unfold escalating, start; simpl. split_and!; try done.
    by intros v ?%elem_of_nil. }
  fold visits in Hzooms, Hflag, Hvalid, Hbest, Hnone.
  assert ((∃ k v r, visits !! k = Some v ∧ ui final = show r loading)
          ∨ (∀ v, v ∈ visits → validated v = false)) as Hcase.
  { destruct (decide (Exists (λ v, validated v = true) visits)) as [Hex|Hno].
    - left. apply Exists_exists in Hex as (v & Hv & Hval).
      apply list_elem_of_lookup in Hv as [k Hk].
      destruct (Hvalid k v Hk Hval) as (_ & r & _ & Hui). by exists k, v, r.
    - right. intros v Hv. destruct (validated v) eqn:Hval; [|done].
      destruct Hno. apply Exists_exists. by exists v. }
  split_and!; try done.
  - intros k v Hk Hval.
    destruct (Hvalid k v Hk Hval) as (Hlast & r & Hr & Hui).
    split; [done|]. exists r. split_and!; [done..|].
    rewrite Hui. apply show_displays.
  - intros Hall. destruct (Hnone Hall) as [Hz Hui]. split_and!; [done..|].
    rewrite Hui. destruct (last_candidate visits) as [best|];
      [apply show_displays|done].
  - split.
    + intros Herr. destruct Hcase as [(k & v & r & _ & Hui)|Hall].
      { by rewrite Hui in Herr. }
      destruct (Hnone Hall) as [Hz Hui]. split; [done|].
      apply omap_nil_all, last_None. fold (last_candidate visits).
      destruct (last_candidate visits); [by rewrite Hui in Herr|done].
    + intros [Hz Hcand].
      assert (∀ v, v ∈ visits → validated v = false) as Hall.
      { intros v Hv. rewrite (Hflag v Hv). unfold flagged. by rewrite Hcand. }
      destruct (Hnone Hall) as [_ Hui]. rewrite Hui.
      apply omap_nil_all in Hcand. unfold last_candidate. by rewrite Hcand.
  - destruct Hcase as [(k & v & r & _ & ->)|Hall]; [by left|].
    destruct (Hnone Hall) as [_ ->].
    destruct (last_candidate visits); [by left|by right].
  - destruct Hcase as [(k & v & r & _ & ->)|Hall]; [done|].
    destruct (Hnone Hall) as [_ ->]. by destruct (last_candidate visits).
  - intros w'. apply run_ends. simpl. lia.
Qed.

End ZoomCascade.

Transparent ZOOM_CASCADE.

(** ** The controller at work *)

Module ControllerAtWork.
Import Planar Scenario Tiles.

(** On a row of eight squares the diagonal grows by more than a tenth at
    every pass; the loop stops at the pass limit, after six passes. *)
Lemma expansion_loop_bounded_witness :
  @passes flat (engine 8) in_A 7 row_source (first_pass 8) = 6%nat
  ∧ @runPass flat (engine 8) in_A 7 row_source (first_pass 8)
    = Ok (Some (PassLimit, Some (merged_row 7),
                view 8 17.5 6))
  ∧ (@passes flat (engine 8) in_A 7 row_source (first_pass 8) ≤ 6)%nat
  ∧ @runPass flat (engine 8) in_A 7 row_source (first_pass 8) ≠ Ok None.
Proof.
  split; [reflexivity|]. split; [reflexivity|].
  pose proof (@expansion_loop_bounded flat (engine 8) in_A row_source
                (first_pass 8)) as (Hback & Hpasses & _).
  split; [apply (Hpasses 7%nat)|]. apply Hback. run.
Defined.

(** The first zoom level yields [D], which is not at the reference point;
    the second yields the merged row, which is, and the run ends there with
    the row displayed. *)
Lemma cascade_outcome_witness :
  @handleGetBuildingAtLocation flat (engine 3) in_A in_A (view_at 3 2)
  = Ok (Some escalated)
  ∧ bestResult escalated = last_candidate (log escalated)
  ∧ error (ui escalated) = None
  ∧ displays (ui escalated) (merged_row 3)
  ∧ highlight (ui escalated) = Some (Polygon (rectangle (0, 0, 3 * s, s))).
Proof.
  assert (@handleGetBuildingAtLocation flat (engine 3) in_A in_A (view_at 3 2)
          = Ok (Some escalated)) as Hrun by reflexivity.
  split; [exact Hrun|].
  pose proof (@cascade_outcome flat (engine 3) in_A in_A (view_at 3 2)
                escalated Hrun) as (_ & _ & Hshown & Hbest & _).
  split; [exact Hbest|]. split; [reflexivity|].
  destruct (Hshown 1%nat _ eq_refl eq_refl) as (_ & r & Hr & _ & Hdisplays).
  injection Hr as <-. split; [exact Hdisplays|].
  destruct Hdisplays as (_ & _ & Hhighlight & _). exact Hhighlight.
Defined.

End ControllerAtWork.

(** * Further properties *)

(** ** More on the order of JS numbers *)

Lemma SFcompare_refl (x : spec_float) :
  x ≠ S754_nan → SFcompare x x = Some Eq.
Proof.
  destruct x as [[]|[]| |[] m e]; simpl; try done.
  - rewrite Z.compare_refl. by rewrite Pos.compare_cont_refl.
  - rewrite Z.compare_refl. by rewrite Pos.compare_cont_refl.
Qed.

Lemma is_nan_Prim2SF (x : float) : is_nan x = true → Prim2SF x = S754_nan.
Proof.
  unfold is_nan. rewrite FloatAxioms.eqb_spec. unfold SFeqb.
  destruct (Prim2SF x) as [sg|sg| |sg m e] eqn:Ex; [| |done|];
    rewrite SFcompare_refl; done.
Qed.

Lemma is_nan_ltb_l (x y : float) : is_nan x = true → (x <? y) = false.
Proof.
  intros Hx%is_nan_Prim2SF. rewrite FloatAxioms.ltb_spec. unfold SFltb.
  by rewrite Hx.
Qed.

(** ** Ray casting *)

Section RayCasting.

Lemma pointInRing_loop_same_side (x y : float) (b : bool) (ring : Ring)
    (prev : Position) (inside : bool) :
  Js.gt prev.2 y = b → (∀ v, v ∈ ring → Js.gt v.2 y = b) →
  pointInRing_loop x y ring prev inside = inside.
Proof.
  revert prev inside. induction ring as [|[xi yi] ring IH];
    intros [xj yj] inside Hprev Hring; simpl; [done|].
  assert (Js.gt yi y = b) as Hi by (apply (Hring (xi, yi)); by left).
  simpl in Hprev. rewrite Hi, Hprev. rewrite Bool.eqb_reflx. simpl.
  apply IH; [done|]. intros v Hv. apply Hring. by right.
Qed.

(** X1.  A point is outside every ring whose vertices all lie on one side
    of the horizontal line through it: strictly above it, or not. *)
Theorem pointInRing_same_side (x y : float) (b : bool) (ring : Ring) :
  (∀ v, v ∈ ring → Js.gt v.2 y = b) → pointInRing (x, y) ring = false.
Proof.
  intros Hring. unfold pointInRing.
  destruct (last ring) as [p|] eqn:Hlast; [|done].
  apply pointInRing_loop_same_side with (b := b); [|done].
  apply Hring. by apply last_Some_elem_of.
Qed.

Lemma pointInRing_loop_nan (x y : float) (ring : Ring) (prev : Position)
    (inside : bool) :
  is_nan x || is_nan y = true →
  pointInRing_loop x y ring prev inside = inside.
Proof.
  intros Hnan. revert prev inside. induction ring as [|[xi yi] ring IH];
    intros [xj yj] inside; simpl; [done|].
  apply orb_true_iff in Hnan as [Hx|Hy].
  - rewrite (is_nan_ltb_l x) by done. rewrite andb_false_r. apply IH.
  - unfold Js.gt. rewrite !(is_nan_ltb_l y) by done. simpl. apply IH.
Qed.

(** X2.  A point with a [NaN] coordinate is inside no ring. *)
Theorem pointInRing_nan (x y : float) (ring : Ring) :
  is_nan x || is_nan y = true → pointInRing (x, y) ring = false.
Proof.
  intros Hnan. unfold pointInRing.
  destruct (last ring) as [p|]; [|done]. by apply pointInRing_loop_nan.
Qed.

End RayCasting.

(** ** Geometry utilities *)

Section Utilities.

Lemma find_first {A} (f : A → bool) (l : list A) (x : A) :
  List.find f l = Some x →
  ∃ i, l !! i = Some x ∧ f x = true
    ∧ ∀ j y, j < i → l !! j = Some y → f y = false.
Proof.
  induction l as [|a l IH]; simpl; [done|].
  destruct (f a) eqn:Ea.
  - intros [= ->]. exists 0%nat. split_and!; [done|done|]. intros j y Hj. lia.
  - intros (i & Hi & Hx & Hbefore)%IH. exists (S i). split_and!; [done|done|].
    intros [|j] y Hj; simpl; [by intros [= <-]|]. apply Hbefore. lia.
Qed.

Lemma find_nothing {A} (f : A → bool) (l : list A) :
  List.find f l = None → ∀ y, y ∈ l → f y = false.
Proof.
  intros Hnone y Hy%list_elem_of_In. by apply (find_none f l).
Qed.

(** X3.  Of a MultiPolygon feature, [toSinglePolygon] gives the first
    part whose exterior ring contains the point by ray casting, and the
    first part of all when no exterior ring does; the result has the type
    Polygon in either case, without coordinates when the MultiPolygon has
    no part. *)
Theorem toSinglePolygon_first_containing
    (feature : Feature) (lngLat : Position) (parts : list PolygonCoords) :
  geometry feature = Some (MultiPolygon parts) →
  ∃ g, toSinglePolygon feature lngLat = Some g
    ∧ type_Polygon g
    ∧ ((∃ i c, g = Polygon c ∧ parts !! i = Some c
          ∧ exterior_contains lngLat c
          ∧ ∀ j c', j < i → parts !! j = Some c' →
              ¬ exterior_contains lngLat c')
       ∨ ((∀ c', c' ∈ parts → ¬ exterior_contains lngLat c')
          ∧ g = match parts !! 0%nat with
                | Some c => Polygon c
                | None => PolygonNoCoordinates
                end)).
Proof.
  intros Hg. unfold toSinglePolygon. rewrite Hg. cbv zeta.
  match goal with |- context [List.find ?h parts] => set (hit := h) end.
  assert (∀ c, hit c = true ↔ exterior_contains lngLat c) as Hhit.
  { intros [|ring holes]; unfold hit, exterior_contains; split.
    - done.
    - by intros (? & ? & ? & _).
    - intros [_ Hin]%andb_true_iff. by exists ring, holes.
    - intros (r & h & [= <- <-] & Hin).
      destruct ring as [|v ring]; [by destruct lngLat|].
      by rewrite Hin. }
  destruct (List.find hit parts) as [c|] eqn:Ef.
  - exists (Polygon c). split; [done|]. split; [done|]. left.
    apply find_first in Ef as (i & Hi & Hc & Hbefore). exists i, c.
    split_and!; [done|done|by apply Hhit|].
    intros j c' Hj Hc' Hcontains%Hhit. by rewrite (Hbefore j c') in Hcontains.
  - eexists. split; [done|]. split; [by destruct (parts !! 0%nat)|].
    right. split; [|done].
    intros c' Hc' Hcontains%Hhit.
    by rewrite (find_nothing _ _ Ef c' Hc') in Hcontains.
Qed.

(** X4.  The GeoJSON built from a feature has the keys [type],
    [properties] and [geometry] and no other: the id, the layer and the
    source of a tile feature are left behind.  It is built for every
    geometry of type Polygon or MultiPolygon; [showHighlight] draws those
    of them that have coordinates, and nothing else: of a Polygon without
    coordinates a GeoJSON is built and no outline is drawn. *)
Theorem buildGeoJSON_keys (feature : Feature) (g : option Geometry) :
  (buildGeoJSONFromFeature feature g = None
   ↔ g = None ∨ ∃ t, g = Some (OtherGeometry t))
  ∧ (showHighlight g = None
     ↔ buildGeoJSONFromFeature feature g = None
       ∨ g = Some PolygonNoCoordinates)
  ∧ (∀ d, showHighlight g = Some d → g = Some d)
  ∧ ∀ out, buildGeoJSONFromFeature feature g = Some out →
      geometry out = g
      ∧ out !! "type"%string = Some (FJson (JStr "Feature"))
      ∧ (∀ o, feature !! "properties"%string = Some (FJson (JObj o)) →
           out !! "properties"%string = Some (FJson (JObj o)))
      ∧ (feature !! "properties"%string = None →
           out !! "properties"%string = Some (FJson (JObj [])))
      ∧ ∀ k : string, k ≠ "type"%string → k ≠ "properties"%string →
          k ≠ "geometry"%string → out !! k = None.
Proof.
  unfold buildGeoJSONFromFeature, showHighlight. split_and!.
  - destruct g as [[c|c|t|]|]; split; try done.
    + intros [|[? ?]]; done.
    + intros [|[? ?]]; done.
    + intros _. right. by exists t.
    + intros [|[? ?]]; done.
    + intros _. by left.
  - destruct g as [[c|c|t|]|]; split; try done.
    + intros [|]; done.
    + intros [|]; done.
    + intros _. by left.
    + intros _. by right.
    + intros _. by left.
  - destruct g as [[c|c|t|]|]; intros d; try done; by intros [= <-].
  - intros out Hout.
    assert (∃ g', g = Some g' ∧
              out = <["type"%string := FJson (JStr "Feature")]>
                    (<["properties"%string :=
                         match feature !! "properties"%string with
                         | Some (FJson JNull) | None => FJson (JObj [])
                         | Some v => v
                         end]>
                     (<["geometry"%string := FGeometry g']> ∅)))
      as (g' & -> & ->).
    { destruct g as [[c|c|t|]|]; try done; injection Hout as <-; eauto. }
    split_and!.
    + unfold geometry.
      rewrite lookup_insert_ne by done. rewrite lookup_insert_ne by done.
      by rewrite lookup_insert_eq.
    + by rewrite lookup_insert_eq.
    + intros o Ho. rewrite lookup_insert_ne by done.
      by rewrite lookup_insert_eq, Ho.
    + intros Ho. rewrite lookup_insert_ne by done.
      by rewrite lookup_insert_eq, Ho.
    + intros k H1 H2 H3. by rewrite !lookup_insert_ne.
Qed.

Lemma foldl_outer_length (cs : list PolygonCoords) (a : nat) :
  foldl (λ sum poly, (sum + outer_length poly)%nat) a cs
  = (a + sum_list (outer_length <$> cs))%nat.
Proof.
  revert a. induction cs as [|c cs IH]; intros a; csimpl; [lia|].
  rewrite IH. lia.
Qed.

End Utilities.

(** ** Flattening *)

Section Flattening.
Context `{Turf}.

(** What one ring adds to the two arrays. *)
Lemma push_fragment_app (acc : Fragments) (c : PolygonCoords) :
  push_fragment acc c = fragments_app acc (push_fragment ([], []) c).
Proof.
  destruct acc as [coords polys]. unfold push_fragment, fragments_app.
  destruct (turf_polygon c); simpl; by rewrite <- ?(assoc_L (++)).
Qed.

Lemma fragments_app_assoc (a b c : Fragments) :
  fragments_app (fragments_app a b) c = fragments_app a (fragments_app b c).
Proof. unfold fragments_app. simpl. by rewrite !(assoc_L (++)). Qed.

Lemma fragments_app_nil_r (a : Fragments) : fragments_app a ([], []) = a.
Proof. destruct a. unfold fragments_app. simpl. by rewrite !app_nil_r. Qed.

Lemma push_parts_app (acc : Fragments) (parts : list PolygonCoords) :
  push_parts acc parts = fragments_app acc (push_parts ([], []) parts).
Proof.
  unfold push_parts. revert acc.
  induction parts as [|c parts IH]; intros acc; simpl.
  - by rewrite fragments_app_nil_r.
  - rewrite IH. rewrite (IH (if has_outer_ring c then _ else _)).
    rewrite <- fragments_app_assoc. f_equal.
    destruct (has_outer_ring c).
    + apply push_fragment_app.
    + by rewrite fragments_app_nil_r.
Qed.

Lemma extract_feature_app (acc : Fragments) (f : Feature) :
  extract_feature acc f = fragments_app acc (extract_feature ([], []) f).
Proof.
  unfold extract_feature.
  destruct (geometry f) as [[c|parts|t|]|];
    try by rewrite fragments_app_nil_r.
  - destruct (has_outer_ring c);
      [apply push_fragment_app|by rewrite fragments_app_nil_r].
  - apply push_parts_app.
Qed.

Lemma foldl_extract_app (acc : Fragments) (features : list Feature) :
  foldl extract_feature acc features
  = fragments_app acc (extractPolygonCoords features).
Proof.
  unfold extractPolygonCoords. revert acc.
  induction features as [|f features IH]; intros acc; simpl.
  - by rewrite fragments_app_nil_r.
  - rewrite IH. rewrite (IH (extract_feature _ f)).
    rewrite <- fragments_app_assoc. f_equal. apply extract_feature_app.
Qed.

(** Each feature adds its fragments after those of the features before
    it: the flattening of a list is that of its parts, one after the
    other. *)
Lemma extractPolygonCoords_app (before after : list Feature) :
  extractPolygonCoords (before ++ after)
  = fragments_app (extractPolygonCoords before) (extractPolygonCoords after).
Proof.
  unfold extractPolygonCoords at 1. rewrite foldl_app.
  fold (extractPolygonCoords before). apply foldl_extract_app.
Qed.

Lemma geometry_with_geometry (f : Feature) (g : Geometry) :
  geometry (with_geometry f g) = Some g.
Proof. unfold geometry, with_geometry. by rewrite lookup_insert_eq. Qed.

Lemma extract_split_feature (f : Feature) (parts : list PolygonCoords)
    (acc : Fragments) :
  foldl extract_feature acc (split_feature f parts) = push_parts acc parts.
Proof.
  unfold split_feature, push_parts. revert acc.
  induction parts as [|c parts IH]; intros acc; [done|].
  csimpl. rewrite IH. f_equal.
  unfold extract_feature. by rewrite geometry_with_geometry.
Qed.

(** X5.  A MultiPolygon feature is flattened as its parts are, each taken
    as a Polygon feature; and when it is not the first feature, the merge
    of the list with the feature split into its parts is the same. *)
Theorem multipolygon_as_its_parts
    (before after : list Feature) (f : Feature) (parts : list PolygonCoords) :
  geometry f = Some (MultiPolygon parts) →
  extractPolygonCoords (before ++ f :: after)
  = extractPolygonCoords (before ++ split_feature f parts ++ after)
  ∧ (before ≠ [] → ∀ lngLat options,
       pickOrMergeSourceFeatures (before ++ f :: after) lngLat options
       = pickOrMergeSourceFeatures (before ++ split_feature f parts ++ after)
           lngLat options).
Proof.
  intros Hg.
  assert (extractPolygonCoords (before ++ f :: after)
          = extractPolygonCoords (before ++ split_feature f parts ++ after))
    as Hsame.
  { rewrite !extractPolygonCoords_app. f_equal.
    change (f :: after) with ([f] ++ after).
    rewrite !extractPolygonCoords_app. f_equal.
    unfold extractPolygonCoords at 2. rewrite extract_split_feature.
    unfold extractPolygonCoords, extract_feature. simpl. by rewrite Hg. }
  split; [done|].
  intros Hne lngLat options. destruct before as [|feature0 before]; [done|].
  simpl. unfold cluster_stage.
  change (feature0 :: before ++ f :: after)
    with ((feature0 :: before) ++ f :: after).
  change (feature0 :: before ++ split_feature f parts ++ after)
    with ((feature0 :: before) ++ split_feature f parts ++ after).
  by rewrite Hsame.
Qed.

(** *** The two arrays *)

Lemma refused_app (a b : list (option Geometry)) :
  refused (a ++ b) = (refused a + refused b)%nat.
Proof. unfold refused. by rewrite filter_app, length_app. Qed.

Lemma push_fragment_flattened (source : PolygonCoords → Prop)
    (acc : Fragments) (c : PolygonCoords) :
  has_outer_ring c = true → source c →
  flattened source acc → flattened source (push_fragment acc c).
Proof.
  destruct acc as [coords polys].
  intros Hc Hsrc (Hlen & Hring & Hpoly & Hal & Htwice).
  unfold push_fragment, turf_polygon.
  destruct (polygon_throws c) eqn:Et; simpl in *.
  - split_and!; simpl.
    + rewrite !length_app, refused_app. simpl.
      change (refused [None]) with 1%nat. lia.
    + intros c' Hc'. rewrite !elem_of_app, !list_elem_of_singleton in Hc'.
      destruct Hc' as [[?| ->]| ->]; auto.
    + intros p [Hp|[=]%list_elem_of_singleton]%elem_of_app.
      destruct (Hpoly p Hp) as (c' & -> & Hin & Hok). exists c'.
      rewrite !elem_of_app. auto.
    + intros Hall. rewrite (Hall c) in Et; [done|].
      rewrite !elem_of_app, list_elem_of_singleton. auto.
    + intros c' Hc' Hthrows.
      rewrite !elem_of_app, !list_elem_of_singleton in Hc'.
      destruct Hc' as [[Hin| ->]| ->].
      * destruct (Htwice c' Hin Hthrows) as (i & Hi & HSi). exists i.
        split; by do 2 apply lookup_app_l_Some.
      * exists (length coords). split.
        -- apply lookup_app_l_Some. by rewrite lookup_app_r, Nat.sub_diag.
        -- rewrite lookup_app_r; rewrite length_app; simpl; [|lia].
           by replace (S (length coords) - (length coords + 1))%nat
             with 0%nat by lia.
      * exists (length coords). split.
        -- apply lookup_app_l_Some. by rewrite lookup_app_r, Nat.sub_diag.
        -- rewrite lookup_app_r; rewrite length_app; simpl; [|lia].
           by replace (S (length coords) - (length coords + 1))%nat
             with 0%nat by lia.
  - split_and!; simpl.
    + rewrite !length_app, refused_app. simpl.
      try change (refused [Some (Polygon c)]) with 0%nat. lia.
    + intros c' [?| ->%list_elem_of_singleton]%elem_of_app; auto.
    + intros p [Hp|[= ->]%list_elem_of_singleton]%elem_of_app.
      * destruct (Hpoly p Hp) as (c' & -> & Hin & Hok). exists c'.
        rewrite elem_of_app. auto.
      * exists c. rewrite elem_of_app, list_elem_of_singleton. auto.
    + intros Hall. rewrite fmap_app. simpl. f_equal. apply Hal.
      intros c' Hc'. apply Hall. rewrite elem_of_app. auto.
    + intros c' [Hin| ->%list_elem_of_singleton]%elem_of_app Hthrows;
        [|congruence].
      destruct (Htwice c' Hin Hthrows) as (i & Hi & HSi). exists i.
      split; by apply lookup_app_l_Some.
Qed.

Lemma push_parts_flattened (source : PolygonCoords → Prop)
    (acc : Fragments) (parts : list PolygonCoords) :
  (∀ c, c ∈ parts → source c) →
  flattened source acc → flattened source (push_parts acc parts).
Proof.
  unfold push_parts. revert acc.
  induction parts as [|c parts IH]; intros acc Hsrc Hacc; simpl; [done|].
  apply IH; [intros c' Hc'; apply Hsrc; by right|].
  destruct (has_outer_ring c) eqn:Hc; [|done].
  apply push_fragment_flattened; [done|apply Hsrc; by left|done].
Qed.

Lemma extract_feature_flattened (features : list Feature) (f : Feature)
    (acc : Fragments) :
  f ∈ features →
  flattened (ring_of features) acc →
  flattened (ring_of features) (extract_feature acc f).
Proof.
  intros Hf Hacc. unfold extract_feature.
  destruct (geometry f) as [[c|parts|t|]|] eqn:Hg; try done.
  - destruct (has_outer_ring c) eqn:Hc; [|done].
    apply push_fragment_flattened; [done| |done]. exists f. auto.
  - apply push_parts_flattened; [|done].
    intros c Hc. exists f. split; [done|]. right. by exists parts.
Qed.

Lemma foldl_extract_flattened (features l : list Feature) (acc : Fragments) :
  (∀ f, f ∈ l → f ∈ features) →
  flattened (ring_of features) acc →
  flattened (ring_of features) (foldl extract_feature acc l).
Proof.
  revert acc. induction l as [|f l IH]; intros acc Hl Hacc; simpl; [done|].
  apply IH; [intros f' Hf'; apply Hl; by right|].
  apply extract_feature_flattened; [apply Hl; by left|done].
Qed.

Lemma extractPolygonCoords_flattened (features : list Feature) :
  flattened (ring_of features) (extractPolygonCoords features).
Proof.
  apply foldl_extract_flattened; [done|].
  split_and!; simpl;
    [done|by intros c ?%elem_of_nil|by intros p ?%elem_of_nil|done
    |by intros c ?%elem_of_nil].
Qed.

(** X6.  The array [coords] is longer than [turfPolys] by the number of
    rings that [turf.polygon] refused: the two arrays have the same
    length exactly when it refused none. *)
Theorem flatten_lengths (features : list Feature) :
  let '(coords, turfPolys) := extractPolygonCoords features in
  length coords = (length turfPolys + refused turfPolys)%nat
  ∧ (length coords = length turfPolys ↔ ∀ p, p ∈ turfPolys → p ≠ None).
Proof.
  pose proof (extractPolygonCoords_flattened features) as (Hlen & _).
  destruct (extractPolygonCoords features) as [coords polys]. simpl in *.
  split; [done|]. rewrite Hlen. unfold refused. split.
  - intros Hz p Hp ->.
    assert (None ∈ filter (λ p : option Geometry, p = None) polys) as Hin
      by by apply list_elem_of_filter.
    destruct (filter _ polys); [by apply elem_of_nil in Hin|simpl in Hz; lia].
  - intros Hall.
    destruct (filter _ polys) as [|p l] eqn:Ef; [simpl; lia|].
    assert (p ∈ filter (λ p : option Geometry, p = None) polys) as Hin
      by (rewrite Ef; by left).
    apply list_elem_of_filter in Hin as [-> Hin]. by destruct (Hall None).
Qed.

(** X7.  Every ring that the flattening keeps is the Polygon of an input
    feature or a part of its MultiPolygon and has a first ring that is not
    empty, and every Turf polygon is a ring kept that [turf.polygon]
    accepted. *)
Theorem flatten_sound (features : list Feature) :
  let '(coords, turfPolys) := extractPolygonCoords features in
  (∀ c, c ∈ coords → has_outer_ring c = true ∧ ring_of features c)
  ∧ (∀ p, Some p ∈ turfPolys →
       ∃ c, p = Polygon c ∧ c ∈ coords ∧ polygon_throws c = false).
Proof.
  pose proof (extractPolygonCoords_flattened features)
    as (_ & Hring & Hpoly & _).
  by destruct (extractPolygonCoords features) as [coords polys].
Qed.

(** X8.  [turfPolys] holds the Turf polygon of each ring of [coords], index
    by index, exactly when [turf.polygon] refuses no ring of [coords]; a
    ring that it refuses is in [coords] twice in a row. *)
Theorem flatten_aligned (features : list Feature) :
  let '(coords, turfPolys) := extractPolygonCoords features in
  (turfPolys = (λ c, Some (Polygon c)) <$> coords
   ↔ ∀ c, c ∈ coords → polygon_throws c = false)
  ∧ (∀ c, c ∈ coords → polygon_throws c = true →
       ∃ i, coords !! i = Some c ∧ coords !! S i = Some c).
Proof.
  pose proof (extractPolygonCoords_flattened features)
    as (_ & _ & Hpoly & Hal & Htwice).
  destruct (extractPolygonCoords features) as [coords polys]. simpl in *.
  split; [|done]. split; [|done]. intros -> c Hc.
  destruct (Hpoly (Polygon c)) as (c' & [= <-] & _ & Hok); [|done].
  apply list_elem_of_fmap. by exists c.
Qed.

Lemma sum_list_append (a b : list nat) :
  sum_list (a ++ b) = (sum_list a + sum_list b)%nat.
Proof. induction a as [|x a IH]; simpl; [done|]. rewrite IH. lia. Qed.

Lemma outer_length_no_ring (c : PolygonCoords) :
  has_outer_ring c = false → outer_length c = 0%nat.
Proof.
  destruct c as [|[|v ring] holes]; simpl; done.
Qed.

Lemma push_parts_cons (acc : Fragments) (c : PolygonCoords)
    (parts : list PolygonCoords) :
  push_parts acc (c :: parts)
  = push_parts (if has_outer_ring c then push_fragment acc c else acc) parts.
Proof. done. Qed.

Lemma push_parts_outer_length (parts : list PolygonCoords) :
  (∀ c, c ∈ (push_parts ([], []) parts).1 → polygon_throws c = false) →
  sum_list (outer_length <$> (push_parts ([], []) parts).1)
  = sum_list (outer_length <$> parts).
Proof.
  induction parts as [|c parts IH]; [done|].
  rewrite push_parts_cons, push_parts_app. csimpl. intros Hall.
  rewrite fmap_app, sum_list_append, IH.
  2:{ intros c' Hc'. apply Hall. rewrite elem_of_app. auto. }
  f_equal. destruct (has_outer_ring c) eqn:Hc.
  - unfold push_fragment, turf_polygon in *.
    destruct (polygon_throws c) eqn:Et; simpl in *; [|lia].
    rewrite (Hall c) in Et; [done|]. by left.
  - simpl. by rewrite outer_length_no_ring.
Qed.

(** X9.  When [turf.polygon] refuses no ring, the rings that the flattening
    of a feature keeps have as many exterior ring positions as
    [countCoords] counts in its geometry. *)
Theorem countCoords_of_fragments (f : Feature) :
  (∀ c, c ∈ (extractPolygonCoords [f]).1 → polygon_throws c = false) →
  sum_list (outer_length <$> (extractPolygonCoords [f]).1)
  = countCoords (geometry f).
Proof.
  unfold extractPolygonCoords, extract_feature. simpl.
  destruct (geometry f) as [[c|parts|t|]|]; simpl; try done.
  - destruct (has_outer_ring c) eqn:Hc;
      [|by rewrite outer_length_no_ring].
    unfold push_fragment, turf_polygon.
    destruct (polygon_throws c) eqn:Et; simpl; [|lia].
    intros Hall. rewrite (Hall c) in Et; [done|]. by left.
  - intros Hall. rewrite foldl_outer_length. simpl.
    by apply push_parts_outer_length.
Qed.

End Flattening.

(** ** The merge engine *)

Section MergeEngine.
Context `{Turf}.

Lemma poly_at_elem (polys : list (option Geometry)) (i : nat) (p : Geometry) :
  poly_at polys i = Some p → Some p ∈ polys.
Proof.
  unfold poly_at. destruct (polys !! i) as [[q|]|] eqn:E; simpl; try done.
  intros [= ->]. by eapply list_elem_of_lookup_2.
Qed.

Lemma select_seed_returns (coords : list PolygonCoords)
    (polys : list (option Geometry)) (lngLat clickPt : Position) :
  (∀ p, Some p ∈ polys → turf_area p ≠ Throw) →
  ∃ st, select_seed coords polys lngLat clickPt = Ok st.
Proof.
  intros Harea. unfold select_seed, seed_by_raycast.
  destruct (seed_by_containment coords polys clickPt).1; simpl; [eauto|].
  destruct (List.find _ _) as [i|]; simpl; [|eauto].
  destruct (poly_at polys i) as [p|] eqn:Ep; simpl; [|eauto].
  apply poly_at_elem, Harea in Ep.
  destruct (turf_area p); simpl; [eauto|done].
Qed.

(** X10.  The merge of no feature is [null], and of no other list.  The
    merge of a list returns a feature whenever [turf.point] accepts the
    point and the area and the centroid of every Turf polygon can be
    computed: the failures of all other calls of the library are caught. *)
Theorem merge_returns
    (features : list Feature) (lngLat : Position) (options : Options) :
  features ≠ [] →
  pickOrMergeSourceFeatures features lngLat options ≠ Ok None
  ∧ (point_throws lngLat = false →
     (∀ p, Some p ∈ (extractPolygonCoords features).2 →
        turf_area p ≠ Throw ∧ turf_centroid p ≠ Throw) →
     ∃ r, pickOrMergeSourceFeatures features lngLat options = Ok (Some r))
  ∧ pickOrMergeSourceFeatures [] lngLat options = Ok None.
Proof.
  intros Hne. destruct features as [|feature0 rest]; [done|].
  split_and!; [| |done].
  { unfold pickOrMergeSourceFeatures.
    by destruct (cluster_stage feature0 rest lngLat options) as [[|]|]. }
  intros Hpt Hlib.
  unfold pickOrMergeSourceFeatures, cluster_stage.
  destruct (extractPolygonCoords _) as [coords polys]. simpl in Hlib.
  destruct (length coords =? 0)%nat; simpl; [eauto|].
  unfold turf_point. rewrite Hpt. simpl.
  destruct (length coords =? 1)%nat; simpl; [eauto|].
  destruct (select_seed_returns coords polys lngLat lngLat) as [[seed a] ->].
  { intros p Hp. by apply Hlib. }
  simpl. destruct seed as [seedIndex|]; simpl; [|eauto].
  destruct (poly_at polys seedIndex) as [p|] eqn:Ep; simpl.
  - apply poly_at_elem, Hlib in Ep as [Ha Hc].
    destruct (turf_centroid p); simpl; [|done].
    destruct (turf_area p); simpl; [|done].
    destruct (negb (Js.truthy a) || Js.le a 0); simpl; eauto.
  - destruct (negb (Js.truthy a) || Js.le a 0); simpl; eauto.
Qed.

Lemma merge_of_cluster feature0 rest lngLat options c :
  cluster_stage feature0 rest lngLat options = Ok (inr c) →
  pickOrMergeSourceFeatures (feature0 :: rest) lngLat options
  = Ok (Some (with_geometry feature0 (merged_geometry c))).
Proof. intros Hstage. unfold pickOrMergeSourceFeatures. by rewrite Hstage. Qed.

(** The seed is the first member, and an index of [allCoords]. *)
Lemma cluster_seed_first feature0 rest lngLat options c :
  cluster_stage feature0 rest lngLat options = Ok (inr c) →
  ∃ joined, members (cluster c) = seedIndex c :: joined
    ∧ seedIndex c < length (allCoords c).
Proof.
  intros (_ & Hseed & _ & _ & Hcl)%cluster_stage_clustered.
  assert (∃ joined, members (cluster c) = seedIndex c :: joined)
    as [joined Hj]; [|by exists joined].
  rewrite Hcl.
  apply (expand_inv (allCoords c) (turfPolys c) (seedCentroid c)
           (maxClusterArea c) (maxDist c)
           (λ ms _, ∃ joined, ms = seedIndex c :: joined)).
  - intros st i _ _ [joined ->]. by exists (joined ++ [i]).
  - by exists [].
Qed.

(** X11.  The seed is the first member of the cluster, the members are
    distinct indices of [allCoords], and every member but the seed has a
    Turf polygon; so the rings of the cluster are never none, and the
    branch for an empty cluster is not taken. *)
Theorem cluster_members feature0 rest lngLat options c :
  cluster_stage feature0 rest lngLat options = Ok (inr c) →
  head (members (cluster c)) = Some (seedIndex c)
  ∧ NoDup (members (cluster c))
  ∧ (∀ i, i ∈ members (cluster c) → i < length (allCoords c))
  ∧ (∀ i, i ∈ members (cluster c) → i ≠ seedIndex c →
       is_Some (poly_at (turfPolys c) i))
  ∧ length (cluster_coords (allCoords c) (members (cluster c))) ≠ 0%nat.
Proof.
  intros (_ & Hseed & _ & _ & Hcl)%cluster_stage_clustered.
  pose proof (expand_fixpoint (allCoords c) (turfPolys c) (seedCentroid c)
                (maxClusterArea c) (maxDist c) (seedIndex c) Hseed)
    as ([Hnd Hlt] & _).
  pose proof (expand_inv (allCoords c) (turfPolys c) (seedCentroid c)
                (maxClusterArea c) (maxDist c)
                (λ ms _, head ms = Some (seedIndex c)
                   ∧ ∀ i, i ∈ ms → i ≠ seedIndex c →
                       is_Some (poly_at (turfPolys c) i))
                (seedIndex c)) as Hinv.
  simpl in Hinv. rewrite <- Hcl in Hnd, Hlt, Hinv.
  destruct Hinv as [Hhead Hpoly].
  - intros st i _ (_ & poly & Hp & _) [Hh Hm]. split.
    + destruct (members st); [done|]. done.
    + intros j [Hj| ->%list_elem_of_singleton]%elem_of_app Hne; [by apply Hm|].
      by rewrite Hp.
  - split; [done|]. by intros i ->%list_elem_of_singleton.
  - split_and!; try done.
    unfold cluster_coords. rewrite length_fmap.
    by destruct (members (cluster c)).
Qed.

(** X12.  The running total [clusterArea] is the sum of the areas of the
    members, starting from that of the seed, added in the order of
    admission; an area that could not be computed counts as zero. *)
Theorem cluster_area_is_running_sum feature0 rest lngLat options c :
  cluster_stage feature0 rest lngLat options = Ok (inr c) →
  clusterArea (cluster c)
  = running_area (allCoords c) (turfPolys c) (members (cluster c)).
Proof.
  intros (_ & Hseed & _ & _ & Hcl)%cluster_stage_clustered.
  rewrite Hcl.
  apply (expand_inv (allCoords c) (turfPolys c) (seedCentroid c)
           (maxClusterArea c) (maxDist c)
           (λ ms a, ms ≠ [] ∧ a = running_area (allCoords c) (turfPolys c) ms)).
  - intros st i _ _ [Hne ->]. split; [by destruct (members st)|].
    destruct (members st) as [|s ms]; [done|]. simpl. by rewrite foldl_app.
  - done.
Qed.


(** X14.  When no other fragment meets the seed, the cluster is the seed
    alone and the merge gives back the rings at the index of the seed as
    they are, holes included: no union and no cleanup is made. *)
Theorem isolated_seed_unchanged feature0 rest lngLat options c :
  cluster_stage feature0 rest lngLat options = Ok (inr c) →
  (∀ i p q, i ≠ seedIndex c →
     poly_at (turfPolys c) i = Some p →
     poly_at (turfPolys c) (seedIndex c) = Some q →
     turf_booleanIntersects p q ≠ Ok true) →
  members (cluster c) = [seedIndex c]
  ∧ ∃ rings, allCoords c !! seedIndex c = Some rings
      ∧ pickOrMergeSourceFeatures (feature0 :: rest) lngLat options
        = Ok (Some (with_geometry feature0 (Polygon rings))).
Proof.
  intros Hstage Halone.
  pose proof (merge_of_cluster _ _ _ _ _ Hstage) as Hmerge.
  apply cluster_stage_clustered in Hstage as (_ & Hseed & _ & _ & Hcl).
  assert (members (cluster c) = [seedIndex c]) as Hm.
  { rewrite Hcl. unfold expand. simpl. unfold scan. simpl.
    rewrite foldl_step_idle; [done|].
    intros i _ (Hni & poly & Hp & _ & _ & Ht). simpl in Hni.
    change (touchesCluster (turfPolys c) poly [seedIndex c] = true) in Ht.
    apply touchesCluster_spec in Ht as (j & other & Hj & Ho & Hi).
    apply list_elem_of_singleton in Hj as ->.
    apply (Halone i poly other); [|done..].
    intros ->. apply Hni. by apply list_elem_of_singleton. }
  split; [done|].
  destruct (lookup_lt_is_Some_2 _ _ Hseed) as [rings Hrings].
  exists rings. split; [done|]. rewrite Hmerge.
  replace (merged_geometry c) with (Polygon rings); [done|].
  unfold merged_geometry, cluster_coords. rewrite Hm, fmap_cons. cbv beta.
  unfold PolygonCoords in *. by rewrite Hrings.
Qed.

(** *** The union and the part kept *)

Lemma union_loop_polygonal (u : Geometry) (l : list PolygonCoords) :
  (∀ a b, turf_union a b ≠ Ok None) →
  (∀ a b u, turf_union a b = Ok (Some u) → polygonal u) →
  polygonal u →
  ∃ u', union_loop u l = Some u' ∧ polygonal u'.
Proof.
  intros Hn Hu. revert u. induction l as [|c l IH]; intros u Hp; simpl.
  - by exists u.
  - destruct (turf_polygon c) as [next|]; simpl; [|by apply IH].
    destruct (turf_union u next) as [[u'|]|] eqn:Eu.
    + apply IH. by apply (Hu u next).
    + by destruct (Hn u next).
    + by apply IH.
Qed.

Lemma canonicalize_polygonal (clickPt : Position) (u : Geometry) :
  polygonal u → ∃ c, canonicalize clickPt (Some u) = Some (Polygon c).
Proof.
  destruct u as [c|parts|t|]; simpl; [eauto| |done..].
  intros Hne. destruct (1 <? length parts)%nat eqn:E1; [eauto|].
  destruct (length parts =? 1)%nat eqn:E2; [eauto|].
  apply Nat.ltb_ge in E1. apply Nat.eqb_neq in E2.
  destruct parts; [done|simpl in *; lia].
Qed.

(** X15.  When the ring of the seed can be made a Turf polygon, no union
    comes back empty, every union is a Polygon or a MultiPolygon that has a
    part, and the cleanup of a Polygon is a Polygon, the merge of a
    cluster is a single Polygon. *)
Theorem merge_of_cluster_is_polygon feature0 rest lngLat options c :
  cluster_stage feature0 rest lngLat options = Ok (inr c) →
  (∀ rings, allCoords c !! seedIndex c = Some rings →
     polygon_throws rings = false) →
  (∀ a b, turf_union a b ≠ Ok None) →
  (∀ a b u, turf_union a b = Ok (Some u) → polygonal u) →
  (∀ g g', turf_cleanCoords g = Ok (Some g') → is_Polygon g → is_Polygon g') →
  ∃ rings, pickOrMergeSourceFeatures (feature0 :: rest) lngLat options
           = Ok (Some (with_geometry feature0 (Polygon rings))).
Proof.
  intros Hstage Hseed Hn Hu Hclean.
  rewrite (merge_of_cluster _ _ _ _ _ Hstage).
  destruct (cluster_seed_first _ _ _ _ _ Hstage) as (ms & Hm & Hlt).
  assert (∃ rings, merged_geometry c = Polygon rings) as [rings ->];
    [|by exists rings].
  unfold merged_geometry.
  destruct (length _ =? 0)%nat; [eauto|].
  destruct (length _ =? 1)%nat; [eauto|].
  rewrite Hm.
  destruct (lookup_lt_is_Some_2 (allCoords c) (seedIndex c) Hlt) as [c0 Hc0].
  unfold cluster_coords. rewrite fmap_cons. cbv beta.
  unfold PolygonCoords in *. rewrite Hc0.
  match goal with |- context [?f <$> ms] => generalize (f <$> ms) end.
  intros others. simpl.
  unfold turf_polygon at 1. rewrite (Hseed c0 Hc0).
  destruct (union_loop_polygonal (Polygon c0) others Hn Hu I)
    as (u & -> & Hpoly).
  destruct (canonicalize_polygonal (clickPt c) u Hpoly) as [rings ->].
  unfold cleanup.
  destruct (turf_cleanCoords (Polygon rings)) as [[g|]|] eqn:Ec; [|eauto..].
  destruct (Hclean _ _ Ec) as [rings' ->]; [by exists rings|eauto].
Qed.

Section PickPart.
Variable clickPt : Position.

#[local] Abbreviation contains := (part_contains clickPt).
#[local] Abbreviation measured := (part_area clickPt).
#[local] Abbreviation best_so_far := (best_so_far clickPt).

Lemma pick_part_step (c : PolygonCoords) :
  match
    subPoly ← turf_polygon c;
    inside ← turf_booleanPointInPolygon clickPt subPoly;
    if inside : bool then Ok None
    else a ← turf_area subPoly; Ok (Some a)
  with
  | Ok None => contains c
  | Ok (Some a) => measured c a ∧ ¬ contains c
  | Throw => ¬ contains c ∧ ∀ a, ¬ measured c a
  end.
Proof.
  unfold part_contains, part_area.
  destruct (turf_polygon c) as [p|] eqn:Ep; simpl.
  - destruct (turf_booleanPointInPolygon clickPt p) as [[]|] eqn:Ei; simpl.
    + by exists p.
    + destruct (turf_area p) as [a|] eqn:Ea; simpl.
      * split; [by exists p|]. intros (p' & [= <-] & ?). congruence.
      * split; [intros (p' & [= <-] & ?); congruence|].
        intros a (p' & [= <-] & _ & ?). congruence.
    + split; [intros (p' & [= <-] & ?); congruence|].
      intros a (p' & [= <-] & ? & _). congruence.
  - split; [by intros (p' & ? & _)|]. by intros a (p' & ? & _).
Qed.

(** The index kept is that of a part, unless no part was kept. *)
Lemma pick_part_range (parts : list PolygonCoords) (i bestIdx : nat)
    (bestArea : float) :
  let k := pick_part clickPt parts i bestIdx bestArea in
  k = bestIdx ∨ (i ≤ k < i + length parts).
Proof.
  revert i bestIdx bestArea.
  induction parts as [|c parts IH]; intros i bestIdx bestArea; simpl; [by left|].
  destruct (_ ≫= _) as [[a|]|].
  - destruct (Js.gt a bestArea).
    + destruct (IH (S i) i a) as [->|?]; right; lia.
    + destruct (IH (S i) bestIdx bestArea) as [->|?]; [by left|right; lia].
  - right. lia.
  - destruct (IH (S i) bestIdx bestArea) as [->|?]; [by left|right; lia].
Qed.

(** X16.  The part kept of a union that is a MultiPolygon with a part is
    one of its parts: the index kept is never out of range. *)
Theorem kept_part_is_a_part (parts : list PolygonCoords) :
  parts ≠ [] →
  ∃ c, c ∈ parts
    ∧ canonicalize clickPt (Some (MultiPolygon parts)) = Some (Polygon c).
Proof.
  intros Hne. simpl.
  destruct (1 <? length parts)%nat eqn:E1.
  - apply Nat.ltb_lt in E1.
    destruct (pick_part_range parts 0 0 0) as [Hk|Hk]; simpl in Hk.
    + rewrite Hk. destruct parts as [|c parts]; [done|].
      exists c. split; [by left|done].
    + destruct (lookup_lt_is_Some_2 parts (pick_part clickPt parts 0 0 0))
        as [c Hc]; [lia|].
      exists c. split; [by eapply list_elem_of_lookup_2|].
      unfold PolygonCoords in *. by rewrite Hc.
  - destruct parts as [|c [|c' parts]]; [done| |done].
    exists c. split; [by left|done].
Qed.

Lemma pick_part_first_containing (parts : list PolygonCoords)
    (i bestIdx : nat) (bestArea : float) (k : nat) (c : PolygonCoords) :
  parts !! k = Some c → contains c →
  (∀ j c', j < k → parts !! j = Some c' → ¬ contains c') →
  pick_part clickPt parts i bestIdx bestArea = (i + k)%nat.
Proof.
  revert i bestIdx bestArea k.
  induction parts as [|c0 parts IH]; intros i bestIdx bestArea k Hk Hc Hbefore;
    [done|].
  simpl. pose proof (pick_part_step c0) as Hstep.
  destruct k as [|k].
  - injection Hk as ->.
    destruct (_ ≫= _) as [[a|]|]; [by destruct Hstep| |by destruct Hstep].
    lia.
  - assert (¬ contains c0) as Hc0 by (apply (Hbefore 0%nat); [lia|done]).
    assert (∀ b a, pick_part clickPt parts (S i) b a = (i + S k)%nat) as Hrest.
    { intros b a. rewrite (IH (S i) b a k); [lia|done..|].
      intros j c' Hj Hc'. apply (Hbefore (S j)); [lia|done]. }
    destruct (_ ≫= _) as [[a|]|]; [|done|by apply Hrest].
    destruct (Js.gt a bestArea); by apply Hrest.
Qed.

Lemma part_area_fun (c : PolygonCoords) (a a' : float) :
  measured c a → measured c a' → a = a'.
Proof. intros (p & ? & _ & ?) (p' & ? & _ & ?). congruence. Qed.

Lemma pick_part_largest_from (seen parts : list PolygonCoords)
    (bestIdx : nat) (bestArea : float) :
  (∀ c, c ∈ parts → ¬ contains c) →
  best_so_far seen bestIdx bestArea →
  ∃ a, best_so_far (seen ++ parts)
         (pick_part clickPt parts (length seen) bestIdx bestArea) a.
Proof.
  revert seen bestIdx bestArea.
  induction parts as [|c parts IH]; intros seen bestIdx bestArea Hno Hbest.
  { simpl. rewrite app_nil_r. by exists bestArea. }
  assert (∀ c', c' ∈ parts → ¬ contains c') as Hno'
    by (intros c' Hc'; apply Hno; by right).
  assert (∀ b a, best_so_far (seen ++ [c]) b a →
            ∃ a', best_so_far (seen ++ c :: parts)
                    (pick_part clickPt parts (S (length seen)) b a) a')
    as Hnext.
  { intros b a Hb. specialize (IH (seen ++ [c]) b a Hno' Hb).
    rewrite length_app in IH. simpl in IH.
    replace (length seen + 1)%nat with (S (length seen)) in IH by lia.
    by rewrite <- (assoc_L (++)) in IH. }
  assert (∀ j c' , (seen ++ [c]) !! j = Some c' →
            seen !! j = Some c' ∨ (j = length seen ∧ c' = c)) as Hsnoc.
  { intros j c' Hj. destruct (decide (j < length seen)).
    - left. by rewrite lookup_app_l in Hj.
    - right. rewrite lookup_app_r in Hj by lia.
      apply list_lookup_singleton_Some in Hj as [? <-]. split; [lia|done]. }
  destruct Hbest as [Hmax Hidx].
  simpl. pose proof (pick_part_step c) as Hstep.
  destruct (_ ≫= _) as [[a|]|].
  - destruct Hstep as [Hm _].
    destruct (Js.gt a bestArea) eqn:Egt.
    + apply Hnext. split.
      * intros j c' a' [Hj|[-> ->]]%Hsnoc Hm'.
        -- destruct (Js.gt a' a) eqn:E; [|done].
           rewrite <- (Hmax j c' a' Hj Hm'). unfold Js.gt in *.
           symmetry. by apply (float_ltb_trans bestArea a a').
        -- rewrite (part_area_fun _ _ _ Hm' Hm). apply float_ltb_irrefl.
      * right. exists c. split_and!.
        -- rewrite lookup_app_r by lia. by rewrite Nat.sub_diag.
        -- done.
        -- destruct Hidx as [[_ ->]|(c' & _ & _ & Hpos)]; [done|].
           unfold Js.gt in *. by apply (float_ltb_trans 0 bestArea a).
    + apply Hnext. split.
      * intros j c' a' [Hj|[-> ->]]%Hsnoc Hm'; [by apply (Hmax j c')|].
        by rewrite (part_area_fun _ _ _ Hm' Hm).
      * destruct Hidx as [?|(c' & Hc' & ?)]; [by left|right].
        exists c'. split; [|done]. apply lookup_app_l_Some, Hc'.
  - destruct (Hno c); [by left|done].
  - destruct Hstep as [_ Hnm]. apply Hnext. split.
    + intros j c' a' [Hj|[-> ->]]%Hsnoc Hm'; [by apply (Hmax j c')|].
      by destruct (Hnm a').
    + destruct Hidx as [?|(c' & Hc' & ?)]; [by left|right].
      exists c'. split; [|done]. apply lookup_app_l_Some, Hc'.
Qed.

(** X17.  Of the parts of a union that is a MultiPolygon, the first that
    contains the point is kept, whatever the areas of the parts before
    it. *)
Theorem kept_part_contains_the_point
    (parts : list PolygonCoords) (k : nat) (c : PolygonCoords) :
  parts !! k = Some c → contains c →
  (∀ j c', j < k → parts !! j = Some c' → ¬ contains c') →
  pick_part clickPt parts 0 0 0 = k
  ∧ (1 < length parts →
       canonicalize clickPt (Some (MultiPolygon parts)) = Some (Polygon c)).
Proof.
  intros Hk Hc Hbefore.
  pose proof (pick_part_first_containing parts 0 0 0 k c Hk Hc Hbefore) as Hp.
  simpl in Hp. split; [done|].
  intros Hlen%Nat.ltb_lt. simpl. rewrite Hlen, Hp.
  unfold PolygonCoords in *. by rewrite Hk.
Qed.

(** X18.  When no part of the union contains the point, the part kept is
    one of the greatest area among the parts whose area is computed and
    above zero, and the first part when there is none. *)
Theorem kept_part_is_largest (parts : list PolygonCoords) :
  (∀ c, c ∈ parts → ¬ contains c) →
  let k := pick_part clickPt parts 0 0 0 in
  (k = 0%nat ∧ ∀ j c a, parts !! j = Some c → measured c a →
                  Js.gt a 0 = false)
  ∨ (∃ c a, parts !! k = Some c ∧ measured c a ∧ Js.gt a 0 = true
       ∧ ∀ j c' a', parts !! j = Some c' → measured c' a' →
           Js.gt a' a = false).
Proof.
  intros Hno k.
  destruct (pick_part_largest_from [] parts 0 0 Hno) as (a & Hmax & Hidx).
  { split; [by intros j c a ?|by left]. }
  simpl in Hmax, Hidx. fold k in Hmax, Hidx.
  destruct Hidx as [[Hk ->]|(c & Hc & Hm & Hpos)]; [by left|].
  right. by exists c, a.
Qed.

End PickPart.

End MergeEngine.

(** ** A click on the map *)

Section ClickProps.
Context `{Turf} `{MapEngine}.

#[local] Opaque pickOrMergeSourceFeatures.



Lemma buildGeoJSON_geometry (feature : Feature) (g : option Geometry) :
  buildGeoJSONFromFeature feature g ≫= geometry
  = match g with
    | Some (OtherGeometry _) | None => None
    | Some g => Some g
    end.
Proof.
  unfold buildGeoJSONFromFeature.
  destruct g as [[c|c|t|]|]; simpl; try done; unfold geometry;
    rewrite lookup_insert_ne by done; rewrite lookup_insert_ne by done;
    by rewrite lookup_insert_eq.
Qed.

Lemma built_outline (feature : Feature) (g : option Geometry)
    (e : option string) :
  outline_of_shown
    {| geoJSON := buildGeoJSONFromFeature feature g; error := e;
       isLoadingBuilding := false; highlight := showHighlight g |}.
Proof.
  unfold outline_of_shown. simpl. rewrite buildGeoJSON_geometry.
  destruct g as [[c|c|t|]|]; simpl; (split; [done|]); split;
    try done; try (by intros [_ [=]]); by intros [[? [=]] _].
Qed.

Lemma cleared_outline (e : option string) (l : bool) :
  outline_of_shown
    {| geoJSON := None; error := e; isLoadingBuilding := l;
       highlight := None |}.
Proof.
  unfold outline_of_shown. simpl. split; [done|].
  split; [by intros [[? [=]] _]|done].
Qed.

(** X20.  The outline drawn on the map is that of the geometry of the
    GeoJSON shown in the panel, when that geometry has coordinates: after
    a click, and at the end of a run of the cascade; both leave the loading
    flag off.  A GeoJSON is shown without an outline exactly when its
    geometry is a Polygon without coordinates.  After a click the geometry
    of the GeoJSON is that of the feature found, when its type is Polygon
    or MultiPolygon, and nothing is shown otherwise. *)
Theorem outline_of_geometry_shown :
  (∀ w point lngLat u,
     let u' := applyBuildingAtPoint w point lngLat u in
     outline_of_shown u'
     ∧ geoJSON u' ≫= geometry
       = match getBuildingFeatureAtPoint w point lngLat ≫= geometry with
         | Some (OtherGeometry _) | None => None
         | Some g => Some g
         end
     ∧ isLoadingBuilding u' = false ∧ error u' = error u)
  ∧ (∀ center clickPt w final,
       handleGetBuildingAtLocation center clickPt w = Ok (Some final) →
       outline_of_shown (ui final)
       ∧ isLoadingBuilding (ui final) = false).
Proof.
  split.
  - intros w point lngLat u. unfold applyBuildingAtPoint.
    destruct (getBuildingFeatureAtPoint w point lngLat) as [feature|];
      cbv zeta; [|split; [apply cleared_outline|done]].
    change (Some feature ≫= geometry) with (geometry feature).
    destruct (geometry feature) as [[c|c|t|]|];
      try (split; [apply cleared_outline|done]);
      (split; [apply built_outline|]);
      (split; [|done]); cbn [geoJSON]; by rewrite buildGeoJSON_geometry.
  - intros center clickPt w final Hrun.
    assert (settled clickPt final) as (_ & _ & Hvalid & _ & Hnone).
    { eapply run_settled; [|exact Hrun].
      unfold escalating, start; simpl. split_and!; try done.
      by intros v ?%elem_of_nil. }
    destruct (decide (Exists (λ v, validated v = true) (log final)))
      as [Hex|Hno].
    + apply Exists_exists in Hex as (v & Hv & Hval).
      apply list_elem_of_lookup in Hv as [k Hk].
      destruct (Hvalid k v Hk Hval) as (_ & r & _ & ->).
      split; [apply built_outline|done].
    + destruct Hnone as [_ ->].
      { intros v Hv. destruct (validated v) eqn:Hval; [|done].
        destruct Hno. apply Exists_exists. by exists v. }
      destruct (last_candidate (log final));
        [split; [apply built_outline|done]|].
      split; [apply (cleared_outline (Some NoBuildingFound) false)|done].
Qed.

End ClickProps.

Transparent pickOrMergeSourceFeatures.

(** ** The discovery at one zoom level *)

Section DiscoveryProps.
Context `{Turf} `{MapEngine}.
Variable center : Position.

(** X21.  The working filter is the first of the three filters on the id
    of the building that the source answers with a feature; the id is the
    top-level id, else [properties.id], else [properties.osm_id]. *)
Theorem working_filter_first (w : World) (building : Feature)
    (sourceId sourceLayer : Json) (filter : Filter) :
  working_filter w building = Some (sourceId, sourceLayer, filter) →
  ∃ featureId i,
    feature_id building = Some featureId
    ∧ filters_to_try featureId !! i = Some filter
    ∧ (∃ first others, querySourceFeatures w sourceId sourceLayer filter
                       = Ok (Some (first :: others)))
    ∧ ∀ j filter', j < i → filters_to_try featureId !! j = Some filter' →
        ∀ first others, querySourceFeatures w sourceId sourceLayer filter'
                        ≠ Ok (Some (first :: others)).
Proof.
  unfold working_filter.
  destruct (Js_obj.field "source" building) as [s|]; [|done].
  destruct (Js_obj.non_nullish (Js_obj.field "sourceLayer" building))
    as [l|]; [|done].
  destruct (Js_obj.non_nullish (feature_id building)) as [featureId|] eqn:Ei;
    [|done].
  destruct (Js_obj.truthy (Some s)); [|done].
  destruct (List.find _ _) as [f|] eqn:Ef; [|done].
  intros [= -> -> ->].
  apply find_first in Ef as (i & Hi & Ha & Hbefore).
  exists featureId, i. split_and!.
  - destruct (feature_id building) as [[]|]; simpl in Ei; congruence.
  - done.
  - unfold answers in Ha.
    destruct (querySourceFeatures w sourceId sourceLayer filter)
      as [[[|first others]|]|]; try done. by exists first, others.
  - intros j filter' Hj Hf' first others Hq.
    specialize (Hbefore j filter' Hj Hf'). unfold answers in Hbefore.
    by rewrite Hq in Hbefore.
Qed.







End DiscoveryProps.

(** ** The limits of a re-query *)

Lemma float_ltb_asym (x y : float) : (x <? y) = true → (y <? x) = false.
Proof.
  intros Hxy. destruct (y <? x) eqn:Hyx; [|done].
  by rewrite <- (float_ltb_irrefl x), (float_ltb_trans x y x).
Qed.

Lemma adaptive_distance_floor (diagonal : float) :
  let m := Js_obj.max MAX_NEIGHBOR_DISTANCE_KM (diagonal * 2.0) in
  (Js.or_default (Some m) MAX_NEIGHBOR_DISTANCE_KM
     <? MAX_NEIGHBOR_DISTANCE_KM) = false.
Proof.
  unfold Js_obj.max, Js.or_default, Js.truthy.
  change (is_nan MAX_NEIGHBOR_DISTANCE_KM) with false.
  generalize (diagonal * 2.0). intros b. simpl.
  destruct (is_nan b) eqn:Hnan; [reflexivity|].
  destruct (MAX_NEIGHBOR_DISTANCE_KM <? b) eqn:Hlt.
  - rewrite Hnan, orb_false_r.
    destruct (b =? 0) eqn:Hz; simpl; [reflexivity|].
    by apply float_ltb_asym.
  - reflexivity.
Qed.

Section Requery.
Context `{Turf} `{MapEngine}.
Variable center : Position.
Variable src : Json * Json * Filter.

(** X24.  Every query that a pass of the expansion loop makes merges with
    an area multiplier of 10 and a distance limit that is not below the
    default of 50 m, whatever the diagonal measured: the passes are never
    stricter than the first query of the zoom level. *)
Theorem requery_limits (st st' : PassState) :
  runPass_body center src st = Ok (NextPass st') →
  ∃ options,
    (currentMerged st', currentGeom st')
    = requery center (world st') src options
        (currentMerged st, currentGeom st)
    ∧ Js.or_default (areaMultiplier options) AREA_MULTIPLIER = 10
    ∧ (Js.or_default (maxDistanceKm options) MAX_NEIGHBOR_DISTANCE_KM
         <? MAX_NEIGHBOR_DISTANCE_KM) = false.
Proof.
  unfold runPass_body.
  destruct (currentGeom st) as [g|] eqn:Eg; [|done].
  destruct (MAX_PASSES <? S (passNumber st))%nat; [done|].
  destruct (turf_bbox g) as [[[[minX minY] maxX] maxY]|]; simpl; [|done].
  destruct (turf_point (minX, minY)) as [p1|]; simpl; [|done].
  destruct (turf_point (maxX, maxY)) as [p2|]; simpl; [|done].
  destruct (turf_distance p1 p2) as [d|]; simpl; [|done].
  destruct (_ && _); [done|].
  match goal with
  | |- context [requery center ?w src ?o ?cur] =>
      destruct (requery center w src o cur) as [merged geom] eqn:Er;
      intros [= <-]; exists o
  end.
  simpl. split_and!; [done|reflexivity|apply adaptive_distance_floor].
Qed.

End Requery.

(** ** The further properties at work *)

Module FurtherAtWork.
Import Planar Scenario Tiles Cases.

(** Split a membership in a list that is written out. *)
Ltac each_member H E :=
  repeat (apply elem_of_cons in H as [E|H]); [..|by apply elem_of_nil in H].

(** A point above the unit square. *)
Lemma pointInRing_same_side_witness : pointInRing (0.5, 2) unit_ring = false.
Proof.
  apply (pointInRing_same_side 0.5 2 false unit_ring).
  intros v Hv. each_member Hv E; subst v; reflexivity.
Defined.

Lemma pointInRing_nan_witness : pointInRing (nan, 0.5) unit_ring = false.
Proof. apply (pointInRing_nan nan 0.5 unit_ring). reflexivity. Defined.

(** Of the parts [B] and [A], the second contains the centre of [A]; of
    no part, a Polygon without coordinates is made. *)
Lemma toSinglePolygon_first_containing_witness :
  (∃ g, toSinglePolygon two_parts in_A = Some g
     ∧ type_Polygon g
     ∧ ((∃ i c, g = Polygon c ∧ [B; A] !! i = Some c
           ∧ exterior_contains in_A c
           ∧ ∀ j c', j < i → [B; A] !! j = Some c' →
               ¬ exterior_contains in_A c')
        ∨ ((∀ c', c' ∈ [B; A] → ¬ exterior_contains in_A c')
           ∧ g = match [B; A] !! 0%nat with
                 | Some c => Polygon c
                 | None => PolygonNoCoordinates
                 end)))
  ∧ toSinglePolygon two_parts in_A = Some (Polygon A)
  ∧ toSinglePolygon partless in_A = Some PolygonNoCoordinates.
Proof.
  split; [|split; reflexivity].
  apply (toSinglePolygon_first_containing two_parts in_A [B; A]).
  reflexivity.
Defined.

(** A lookup on the building without parts shows a GeoJSON and draws no
    outline. *)
Lemma outline_of_geometry_shown_witness :
  @handleGetBuildingAtLocation flat bare in_A in_A (bare_view 2)
  = Ok (Some partless_final)
  ∧ is_Some (geoJSON (ui partless_final))
  ∧ highlight (ui partless_final) = None
  ∧ outline_of_shown (ui partless_final).
Proof.
  assert (@handleGetBuildingAtLocation flat bare in_A in_A (bare_view 2)
          = Ok (Some partless_final)) as Hrun by reflexivity.
  split; [exact Hrun|]. split; [by eexists|]. split; [reflexivity|].
  destruct (@outline_of_geometry_shown flat bare) as [_ Hlookup].
  exact (proj1 (Hlookup in_A in_A (bare_view 2) partless_final Hrun)).
Defined.

Lemma countCoords_of_fragments_witness :
  sum_list (outer_length <$> (@extractPolygonCoords flat [two_parts]).1)
  = countCoords (geometry two_parts).
Proof.
  apply (@countCoords_of_fragments flat two_parts).
  intros c Hc. change (c ∈ [B; A]) in Hc. each_member Hc E; subst c; reflexivity.
Defined.

Lemma multipolygon_as_its_parts_witness :
  @extractPolygonCoords flat ([feature "w1" (Polygon C)] ++ two_parts :: [])
  = @extractPolygonCoords flat
      ([feature "w1" (Polygon C)] ++ split_feature two_parts [B; A] ++ []).
Proof.
  apply (@multipolygon_as_its_parts flat [feature "w1" (Polygon C)] []
           two_parts [B; A]).
  reflexivity.
Defined.

Lemma merge_returns_witness :
  ∃ r, @pickOrMergeSourceFeatures flat chain in_A no_options = Ok (Some r).
Proof.
  destruct (@merge_returns flat chain in_A no_options) as (_ & Hreturns & _);
    [done|].
  apply Hreturns; [reflexivity|].
  intros p Hp.
  change (Some p ∈ [Some (Polygon A); Some (Polygon C); Some (Polygon B)])
    in Hp.
  each_member Hp E; injection E as ->; split; vm_compute; discriminate.
Defined.

Lemma chain_stage :
  @cluster_stage flat (feature "w1" (Polygon A)) (tail chain) in_A no_options
  = Ok (inr chain_result).
Proof. by vm_compute. Qed.

Lemma apart_stage :
  @cluster_stage flat (feature "w1" (Polygon A)) (tail apart) in_A no_options
  = Ok (inr apart_result).
Proof. by vm_compute. Qed.

Lemma cluster_members_witness :
  head (members (cluster chain_result)) = Some 0%nat
  ∧ NoDup (members (cluster chain_result)).
Proof.
  destruct (@cluster_members flat _ _ _ _ chain_result chain_stage)
    as (Hhead & Hnd & _).
  split; [exact Hhead|exact Hnd].
Defined.

Lemma cluster_area_is_running_sum_witness :
  clusterArea (cluster chain_result)
  = @running_area flat (allCoords chain_result) (turfPolys chain_result)
      (members (cluster chain_result)).
Proof.
  exact (@cluster_area_is_running_sum flat _ _ _ _ chain_result chain_stage).
Defined.


Lemma isolated_seed_unchanged_witness :
  members (cluster apart_result) = [0%nat]
  ∧ ∃ rings, allCoords apart_result !! 0%nat = Some rings
      ∧ @pickOrMergeSourceFeatures flat apart in_A no_options
        = Ok (Some (with_geometry (feature "w1" (Polygon A)) (Polygon rings))).
Proof.
  apply (@isolated_seed_unchanged flat _ _ _ _ apart_result apart_stage).
  intros [|[|i]] p q Hi Hp Hq; [done| |done].
  injection Hp as <-. injection Hq as <-. vm_compute. discriminate.
Defined.

Lemma merge_of_cluster_is_polygon_witness :
  ∃ rings, @pickOrMergeSourceFeatures flat chain in_A no_options
           = Ok (Some (with_geometry (feature "w1" (Polygon A))
                         (Polygon rings))).
Proof.
  apply (@merge_of_cluster_is_polygon flat _ _ _ _ chain_result chain_stage).
  - intros rings [= <-]. reflexivity.
  - done.
  - intros a b u [= <-]. exact I.
  - intros g g' [= <-] Hg. exact Hg.
Defined.

Lemma kept_part_is_a_part_witness :
  ∃ c, c ∈ [B; A]
    ∧ @canonicalize flat far_away (Some (MultiPolygon [B; A]))
      = Some (Polygon c).
Proof. apply (@kept_part_is_a_part flat far_away [B; A]). done. Defined.

(** Of the parts [B] and [A], [A] is kept around its centre. *)
Lemma kept_part_contains_the_point_witness :
  @pick_part flat in_A [B; A] 0 0 0 = 1%nat
  ∧ ((1 < length [B; A])%nat →
       @canonicalize flat in_A (Some (MultiPolygon [B; A]))
       = Some (Polygon A)).
Proof.
  apply (@kept_part_contains_the_point flat in_A [B; A] 1 A).
  - reflexivity.
  - exists (Polygon A). split; reflexivity.
  - intros [|j] c' Hj Hc'; [|lia]. injection Hc' as <-.
    intros (p & [= <-] & Hin). vm_compute in Hin. discriminate.
Defined.

(** Far from [A] and from the square of twice its side, the larger is
    kept. *)
Lemma kept_part_is_largest_witness :
  (@pick_part flat far_away A_and_double 0 0 0 = 0%nat
   ∧ ∀ j c a, A_and_double !! j = Some c →
       @part_area flat far_away c a → Js.gt a 0 = false)
  ∨ (∃ c a, A_and_double
            !! @pick_part flat far_away A_and_double 0 0 0 = Some c
       ∧ @part_area flat far_away c a
       ∧ Js.gt a 0 = true
       ∧ ∀ j c' a', A_and_double !! j = Some c' →
           @part_area flat far_away c' a' → Js.gt a' a = false).
Proof.
  apply (@kept_part_is_largest flat far_away A_and_double).
  intros c Hc (p & Hp & Hin). unfold A_and_double in Hc.
  each_member Hc E; subst c; injection Hp as <-; vm_compute in Hin;
    discriminate.
Defined.

Lemma working_filter_first_witness :
  ∃ featureId i,
    feature_id (rendered "w1" A) = Some featureId
    ∧ filters_to_try featureId !! i = Some (FilterId (JStr "w1"))
    ∧ (∃ first others,
         @querySourceFeatures (engine 3) (view_at 3 17.5) (JStr "openmaptiles")
           (JStr "building") (FilterId (JStr "w1"))
         = Ok (Some (first :: others)))
    ∧ ∀ j filter', j < i → filters_to_try featureId !! j = Some filter' →
        ∀ first others,
          @querySourceFeatures (engine 3) (view_at 3 17.5) (JStr "openmaptiles")
            (JStr "building") filter'
          ≠ Ok (Some (first :: others)).
Proof.
  apply (@working_filter_first (engine 3) (view_at 3 17.5) (rendered "w1" A)).
  reflexivity.
Defined.



(** The first pass over a row of eight squares. *)
Lemma requery_limits_witness :
  ∃ options,
    (currentMerged second_pass, currentGeom second_pass)
    = @requery flat (engine 8) in_A (world second_pass) row_source options
        (currentMerged (first_pass 8), currentGeom (first_pass 8))
    ∧ Js.or_default (areaMultiplier options) AREA_MULTIPLIER = 10
    ∧ (Js.or_default (maxDistanceKm options) MAX_NEIGHBOR_DISTANCE_KM
         <? MAX_NEIGHBOR_DISTANCE_KM) = false.
Proof.
  apply (@requery_limits flat (engine 8) in_A row_source (first_pass 8)
           second_pass).
  reflexivity.
Defined.

End FurtherAtWork.
